(** * TransMarkSet: attribute-driven localization of the setting editor UI

    A shallow embedding of [templates/scripts/transmarkset.js] and the
    properties of its markset parser/builder and of its element appliers.

    Modelling conventions.
    - JavaScript values that flow through the module are [null],
      [undefined], strings, and the objects or functions that a table
      lookup can find under an inherited key ([jsval]).
    - A JavaScript string is a [string]; [+] on strings is [+:+].
    - A JavaScript object used as a table is a [Table]: its own entries,
      each holding a string, and the properties it inherits through its
      prototype chain, which a lookup finds as well.
    - The functions that mutate an element take the element and return the
      mutated element; the calls made to the tip scheduler are threaded
      through as the list of elements handed to it. *)

From Stdlib Require Import Ascii.
From Equations Require Import Equations.
From stdpp Require Import gmap strings list fin_maps.

(** ** JavaScript values *)

(** [JObject id repr] is an object or a function (anything but a string,
    [null] and [undefined]): [id] is its identity and [repr] the string its
    conversion to string yields. *)
Inductive jsval : Type :=
| JNull
| JUndefined
| JStr (s : string)
| JObject (id : nat) (repr : string).

(** [ToBoolean]: [null], [undefined] and the empty string are falsy; every
    object is truthy. *)
Definition truthy (v : jsval) : bool :=
  match v with
  | JStr s => negb (String.eqb s "")
  | JObject _ _ => true
  | _ => false
  end.

(** [ToString], as applied by string concatenation and by property keys. *)
Definition ToString (v : jsval) : string :=
  match v with
  | JNull => "null"
  | JUndefined => "undefined"
  | JStr s => s
  | JObject _ repr => repr
  end.

(** The [==] operator on the values of the model: strings by content,
    objects by identity, an object and a string by the object's conversion
    to string, [null] and [undefined] equal to each other only. *)
Definition js_eq (a b : jsval) : bool :=
  match a, b with
  | JStr x, JStr y => String.eqb x y
  | JObject i _, JObject j _ => Nat.eqb i j
  | JObject _ repr, JStr y | JStr y, JObject _ repr => String.eqb repr y
  | (JNull | JUndefined), (JNull | JUndefined) => true
  | _, _ => false
  end.

(** The [!=] operator. *)
Definition js_neq (a b : jsval) : bool := negb (js_eq a b).

(** [arr[i]]: an index past the end reads [undefined]. *)
Definition index (arr : list string) (i : nat) : jsval :=
  match arr !! i with
  | Some s => JStr s
  | None => JUndefined
  end.

(** A table object of languages.js: its own entries, from mark name to
    language-specific string, and the properties it inherits through its
    prototype chain (for an object literal those of [Object.prototype]:
    [constructor], [toString], [valueOf], [hasOwnProperty] and so on, as the
    engine defines them), with the values they hold. *)
Record Table : Type := mkTable {
  own : gmap string string;
  inherited : gmap string jsval
}.

(** [obj[key]] on a table: the key is converted with [ToString]; an own
    entry is found first, then an inherited property; a property found
    nowhere reads [undefined]. *)
Definition prop (obj : Table) (key : jsval) : jsval :=
  match own obj !! ToString key with
  | Some s => JStr s
  | None =>
      match inherited obj !! ToString key with
      | Some v => v
      | None => JUndefined
      end
  end.

(** The properties of [Object.prototype] in ECMAScript 3 (15.2.4), each a
    function; an engine may define more.  Used in the examples. *)
Definition Object_prototype : gmap string jsval :=
  {[ "constructor" := JObject 1 "function Object() { [native code] }";
     "toString" := JObject 2 "function toString() { [native code] }";
     "toLocaleString" :=
       JObject 3 "function toLocaleString() { [native code] }";
     "valueOf" := JObject 4 "function valueOf() { [native code] }";
     "hasOwnProperty" :=
       JObject 5 "function hasOwnProperty() { [native code] }";
     "isPrototypeOf" :=
       JObject 6 "function isPrototypeOf() { [native code] }";
     "propertyIsEnumerable" :=
       JObject 7 "function propertyIsEnumerable() { [native code] }" ]}.

(** The table written as the object literal with the given entries. *)
Definition literal (entries : gmap string string) : Table :=
  mkTable entries Object_prototype.

(** ** String primitives *)

(** The character class [[:;]] of the separator regular expression. *)
Definition is_delim (c : ascii) : bool :=
  Ascii.eqb c ":"%char || Ascii.eqb c ";"%char.

(** [s.split(/[:;]/)]: the pieces of [s] between separator characters.  The
    result has one more piece than [s] has separators; in particular the
    empty string splits into one empty piece. *)
Fixpoint split (s : string) : list string :=
  match s with
  | EmptyString => [""]
  | String c s' =>
      if is_delim c then "" :: split s'
      else match split s' with
           | t :: ts => String c t :: ts
           | [] => [String c ""]
           end
  end.

(** [s.slice(0, -1)]: [s] without its last character. *)
Definition slice_0_m1 (s : string) : string :=
  String.substring 0 (String.length s - 1) s.

(** ** The collaborators of the module *)

(** An element of the page, with the state the module reads or writes: its
    attributes, its rendered content, its [value] and [tip] properties and,
    for a selection list, its option elements.  Each field is a slot of its
    own. *)
#[warnings="-register-all"]
Inductive Element : Type := mkElement {
  attributes : gmap string string;
  innerHTML : string;
  value : string;
  tip : jsval;
  options : list Element
}.

(** [elem.getAttribute(name)]: [null] for an attribute the element lacks. *)
Definition getAttribute (elem : Element) (name : string) : jsval :=
  match attributes elem !! name with
  | Some s => JStr s
  | None => JNull
  end.

(** [elem.innerHTML = v]. *)
Definition set_innerHTML (elem : Element) (v : jsval) : Element :=
  mkElement (attributes elem) (ToString v) (value elem) (tip elem)
    (options elem).

(** [elem.value = v]. *)
Definition set_value (elem : Element) (v : jsval) : Element :=
  mkElement (attributes elem) (innerHTML elem) (ToString v) (tip elem)
    (options elem).

(** [elem.tip = v]. *)
Definition set_tip (elem : Element) (v : jsval) : Element :=
  mkElement (attributes elem) (innerHTML elem) (value elem) v (options elem).

(** The option elements of [elem] after a pass over them. *)
Definition set_options (elem : Element) (opts : list Element) : Element :=
  mkElement (attributes elem) (innerHTML elem) (value elem) (tip elem) opts.

(** Modelled from the spec: the name of the marker attribute, a constant
    declared outside this file; the file's header names the attribute
    'transmark'. *)
Definition TRANSMARK_ATTRNAME : string := "transmark".

(** The language resource table [SettingEditorLanguage] of languages.js:
    one table per mark type, from mark name to language-specific string. *)
Record Language : Type := mkLanguage {
  texts : Table;
  tips : Table;
  values : Table
}.

Module Tips.

(** Modelled from the spec: the tip scheduler, a collaborator outside this
    file.  Its state is the sequence of elements handed to [schedule], in
    call order, each as it was when handed over. *)
Abbreviation t := (list Element).

Definition schedule (elem : Element) (sched : t) : t := sched ++ [elem].

End Tips.

Module Util.
Module array.

(** Modelled from the spec: the array iteration utility [Util.array.apply],
    declared outside this file; it calls [f] on each entry of [arr] in
    order.  [f] returns the entry as it leaves it. *)
Definition apply {A : Type} (arr : list A) (f : A → A) : list A :=
  f <$> arr.

End array.
End Util.

(** ** The markset parser and builder *)

Module TransMarkSet.

(** [TransMarkSet.types]. *)
Module types.

Definition TEXT : string := "text".
Definition TIP : string := "tip".
Definition VALUE : string := "value".

End types.

(** The [for] loop of [getMark_], entered at index [i]. *)
Equations? getMark_loop (marks : list string) (type : string) (i : nat)
  : jsval by wf (length marks - i) lt :=
  getMark_loop marks type i with decide (i < length marks - 1) => {
    | left _ :=
        let name := index marks i in
        let mark := index marks (i + 1) in
        if js_eq name (JStr type) then mark
        else getMark_loop marks type (i + 2);
    | right _ := JNull }.
Proof. lia. Qed.

(** [TransMarkSet.getMark_]. *)
Definition getMark_ (markset : string) (type : string) : jsval :=
  let marks := split markset in
  if decide (length marks < 2) then JNull
  else getMark_loop marks type 0.

(** [TransMarkSet.fillMark_]. *)
Definition fillMark_ (text tip value : jsval) : jsval :=
  let markset := "" in
  let markset :=
    if truthy text
    then markset +:+ (((types.TEXT +:+ ":") +:+ ToString text) +:+ ";")
    else markset in
  let markset :=
    if truthy tip
    then markset +:+ (((types.TIP +:+ ":") +:+ ToString tip) +:+ ";")
    else markset in
  let markset :=
    if truthy value
    then markset +:+ (((types.VALUE +:+ ":") +:+ ToString value) +:+ ";")
    else markset in
  if String.eqb markset "" then JNull else JStr (slice_0_m1 markset).

(** [TransMarkSet.modifyMark].  The modifier is a JavaScript function and
    may have effects: it takes and returns the state [S] it acts on. *)
Definition modifyMark {S : Type} (markset : string)
    (modifier : string → jsval → S → jsval * S) (s : S) : jsval * S :=
  let text := getMark_ markset types.TEXT in
  let tip := getMark_ markset types.TIP in
  let value := getMark_ markset types.VALUE in
  let '(text, s) := modifier types.TEXT text s in
  let '(tip, s) := modifier types.TIP tip s in
  let '(value, s) := modifier types.VALUE value s in
  (fillMark_ text tip value, s).

Section Localization.

Variable SettingEditorLanguage : Language.

(** [TransMarkSet.getText_]. *)
Definition getText_ (markset : string) : jsval :=
  let mark := getMark_ markset types.TEXT in
  prop (texts SettingEditorLanguage) mark.

(** [TransMarkSet.getTip_]. *)
Definition getTip_ (markset : string) : jsval :=
  let mark := getMark_ markset types.TIP in
  prop (tips SettingEditorLanguage) mark.

(** [TransMarkSet.getValue_]. *)
Definition getValue_ (markset : string) : jsval :=
  let mark := getMark_ markset types.VALUE in
  prop (values SettingEditorLanguage) mark.

(** [TransMarkSet.getElementTip_].  Past the guard [mark] is a string, so
    [ToString mark] is [mark] itself; likewise for [tip] and [range]. *)
Definition getElementTip_ (elem : Element) : jsval :=
  let mark := getAttribute elem TRANSMARK_ATTRNAME in
  if truthy mark && js_neq mark (JStr "") then
    let tip := getTip_ (ToString mark) in
    if truthy tip then
      let range := getAttribute elem "range" in
      let tip :=
        if truthy range && js_neq range (JStr "")
        then JStr (ToString tip +:+ (" Range=" +:+ ToString range))
        else tip in
      tip
    else JNull
  else JNull.

(** [TransMarkSet.getElementValue_]. *)
Definition getElementValue_ (elem : Element) : jsval :=
  let mark := getAttribute elem TRANSMARK_ATTRNAME in
  if truthy mark && js_neq mark (JStr "") then
    let value := getValue_ (ToString mark) in
    if truthy value then value else JNull
  else JNull.

(** [TransMarkSet.getElementText_]. *)
Definition getElementText_ (elem : Element) : jsval :=
  let mark := getAttribute elem TRANSMARK_ATTRNAME in
  if truthy mark && js_neq mark (JStr "") then
    let text := getText_ (ToString mark) in
    if truthy text then text else JNull
  else JNull.

(** The tip part shared by the four translators:
    [if (tip) { elem.tip = tip; Tips.schedule(elem); }]. *)
Definition apply_tip (tip : jsval) (elem : Element) (sched : Tips.t)
  : Element * Tips.t :=
  if truthy tip then
    let elem := set_tip elem tip in
    (elem, Tips.schedule elem sched)
  else (elem, sched).

(** [TransMarkSet.transLanguageForSpanElem]. *)
Definition transLanguageForSpanElem (elem : Element) (sched : Tips.t)
  : Element * Tips.t :=
  let text := getElementText_ elem in
  let elem := if truthy text then set_innerHTML elem text else elem in
  let tip := getElementTip_ elem in
  apply_tip tip elem sched.

(** [TransMarkSet.transLanguageForInputElem]. *)
Definition transLanguageForInputElem (elem : Element) (sched : Tips.t)
  : Element * Tips.t :=
  let value := getElementValue_ elem in
  let elem := if truthy value then set_value elem value else elem in
  let tip := getElementTip_ elem in
  apply_tip tip elem sched.

(** The callback that [transLanguageForSelectElem] runs on each option. *)
Definition translate_option (option : Element) : Element :=
  let text := getElementText_ option in
  if truthy text then set_innerHTML option text else option.

(** [TransMarkSet.transLanguageForSelectElem]. *)
Definition transLanguageForSelectElem (elem : Element) (sched : Tips.t)
  : Element * Tips.t :=
  let tip := getElementTip_ elem in
  let '(elem, sched) := apply_tip tip elem sched in
  let opts := Util.array.apply (options elem) translate_option in
  (set_options elem opts, sched).

(** [TransMarkSet.transLanguageForLinkElem]. *)
Definition transLanguageForLinkElem (elem : Element) (sched : Tips.t)
  : Element * Tips.t :=
  let tip := getElementTip_ elem in
  apply_tip tip elem sched.

End Localization.

End TransMarkSet.

(** ** Exceptions *)

(** How a call ends: it returns a value, or it throws.  The one operation
    of the module that can throw is the method call
    [markset.split(/[:;]/)], a [TypeError] when [markset] is not a string;
    reading an attribute, indexing a table, the tip scheduler and the
    iteration utility do not throw. *)
Inductive completion (A : Type) : Type :=
| Normal (a : A)
| Throw.

Arguments Normal {A} a.
Arguments Throw {A}.

#[global] Instance completion_ret : MRet completion := λ A a, Normal a.

#[global] Instance completion_bind : MBind completion :=
  λ A B f c, match c with Normal a => f a | Throw => Throw end.

(** The functions of the module on the way from an element to its
    translation, with the values they are called on as they come (the
    marker as [getAttribute] returns it) and with the exception they may
    end in. *)
Module Checked.

Section Localization.

Variable SettingEditorLanguage : Language.

(** [TransMarkSet.getMark_] called on any value: [markset.split] throws
    unless [markset] is a string. *)
Definition getMark_ (markset : jsval) (type : string) : completion jsval :=
  match markset with
  | JStr m => Normal (TransMarkSet.getMark_ m type)
  | _ => Throw
  end.

(** [TransMarkSet.getText_]. *)
Definition getText_ (markset : jsval) : completion jsval :=
  mark ← getMark_ markset TransMarkSet.types.TEXT;
  mret (prop (texts SettingEditorLanguage) mark).

(** [TransMarkSet.getTip_]. *)
Definition getTip_ (markset : jsval) : completion jsval :=
  mark ← getMark_ markset TransMarkSet.types.TIP;
  mret (prop (tips SettingEditorLanguage) mark).

(** [TransMarkSet.getValue_]. *)
Definition getValue_ (markset : jsval) : completion jsval :=
  mark ← getMark_ markset TransMarkSet.types.VALUE;
  mret (prop (values SettingEditorLanguage) mark).

(** [TransMarkSet.getElementTip_]. *)
Definition getElementTip_ (elem : Element) : completion jsval :=
  let mark := getAttribute elem TRANSMARK_ATTRNAME in
  if truthy mark && js_neq mark (JStr "") then
    tip ← getTip_ mark;
    if truthy tip then
      let range := getAttribute elem "range" in
      let tip :=
        if truthy range && js_neq range (JStr "")
        then JStr (ToString tip +:+ (" Range=" +:+ ToString range))
        else tip in
      mret tip
    else mret JNull
  else mret JNull.

(** [TransMarkSet.getElementValue_]. *)
Definition getElementValue_ (elem : Element) : completion jsval :=
  let mark := getAttribute elem TRANSMARK_ATTRNAME in
  if truthy mark && js_neq mark (JStr "") then
    value ← getValue_ mark;
    if truthy value then mret value else mret JNull
  else mret JNull.

(** [TransMarkSet.getElementText_]. *)
Definition getElementText_ (elem : Element) : completion jsval :=
  let mark := getAttribute elem TRANSMARK_ATTRNAME in
  if truthy mark && js_neq mark (JStr "") then
    text ← getText_ mark;
    if truthy text then mret text else mret JNull
  else mret JNull.

(** [TransMarkSet.transLanguageForSpanElem]. *)
Definition transLanguageForSpanElem (elem : Element) (sched : Tips.t)
  : completion (Element * Tips.t) :=
  text ← getElementText_ elem;
  let elem := if truthy text then set_innerHTML elem text else elem in
  tip ← getElementTip_ elem;
  mret (TransMarkSet.apply_tip tip elem sched).

(** [TransMarkSet.transLanguageForInputElem]. *)
Definition transLanguageForInputElem (elem : Element) (sched : Tips.t)
  : completion (Element * Tips.t) :=
  value ← getElementValue_ elem;
  let elem := if truthy value then set_value elem value else elem in
  tip ← getElementTip_ elem;
  mret (TransMarkSet.apply_tip tip elem sched).

(** The callback that [transLanguageForSelectElem] runs on each option. *)
Definition translate_option (option : Element) : completion Element :=
  text ← getElementText_ option;
  mret (if truthy text then set_innerHTML option text else option).

(** [TransMarkSet.transLanguageForSelectElem]; the iteration stops at the
    first option on which the callback throws. *)
Definition transLanguageForSelectElem (elem : Element) (sched : Tips.t)
  : completion (Element * Tips.t) :=
  tip ← getElementTip_ elem;
  let '(elem, sched) := TransMarkSet.apply_tip tip elem sched in
  opts ← mapM translate_option (options elem);
  mret (set_options elem opts, sched).

(** [TransMarkSet.transLanguageForLinkElem]. *)
Definition transLanguageForLinkElem (elem : Element) (sched : Tips.t)
  : completion (Element * Tips.t) :=
  tip ← getElementTip_ elem;
  mret (TransMarkSet.apply_tip tip elem sched).

End Localization.

End Checked.

(** ** Reading a markset as a list of pairs *)

(** The (type, name) pairs of a token sequence: tokens 0 and 1, tokens 2
    and 3, and so on; a last token without a partner belongs to no pair. *)
Fixpoint pairs (toks : list string) : list (string * string) :=
  match toks with
  | c :: n :: rest => (c, n) :: pairs rest
  | _ => []
  end.

(** The pairs a markset string holds. *)
Definition markset_pairs (markset : string) : list (string * string) :=
  pairs (split markset).

(** The pairs of the result of [fillMark_]; [null] holds none. *)
Definition result_pairs (r : jsval) : list (string * string) :=
  match r with
  | JStr m => markset_pairs m
  | _ => []
  end.

(** The name of the first pair of type [type], [null] when there is none. *)
Fixpoint first_match (type : string) (ps : list (string * string)) : jsval :=
  match ps with
  | [] => JNull
  | (c, n) :: ps' =>
      if String.eqb c type then JStr n else first_match type ps'
  end.

(** Whether a string contains one of the two separator characters. *)
Fixpoint has_delim (s : string) : bool :=
  match s with
  | EmptyString => false
  | String c s' => is_delim c || has_delim s'
  end.

(** Whether a string ends with [;]. *)
Fixpoint ends_with_semicolon (s : string) : bool :=
  match s with
  | EmptyString => false
  | String c EmptyString => Ascii.eqb c ";"%char
  | String _ s' => ends_with_semicolon s'
  end.

(** A mark name that is present: non-empty and free of separators. *)
Definition valid_name (n : string) : bool :=
  negb (String.eqb n "") && negb (has_delim n).

(** An argument of the builder: absent ([null]) or a present mark name. *)
Definition name_arg (v : jsval) : bool :=
  match v with
  | JNull => true
  | JUndefined => false
  | JStr n => valid_name n
  | JObject _ _ => false
  end.

(** Whether a string is one of the three mark types. *)
Definition is_type (c : string) : bool :=
  String.eqb c TransMarkSet.types.TEXT
  || String.eqb c TransMarkSet.types.TIP
  || String.eqb c TransMarkSet.types.VALUE.

(** The written form [type:name] of a pair and [p1;p2;...] of a list of
    pairs, with no separator after the last. *)
Definition write_pair (p : string * string) : string :=
  (p.1 +:+ ":") +:+ p.2.

Fixpoint write_pairs (ps : list (string * string)) : string :=
  match ps with
  | [] => ""
  | [p] => write_pair p
  | p :: ps' => (write_pair p +:+ ";") +:+ write_pairs ps'
  end.

(** A well-formed markset: an even, non-zero number of tokens that
    alternate a mark type and a non-empty name. *)
Definition well_formed (markset : string) : bool :=
  let toks := split markset in
  Nat.even (length toks)
  && forallb (λ p, is_type p.1 && negb (String.eqb p.2 ""))
       (pairs toks).

(** Whether the pairs give every type at most one name: two pairs of the
    same type carry the same name. *)
Definition single_valued (ps : list (string * string)) : bool :=
  forallb (λ p,
    forallb (λ q, negb (String.eqb p.1 q.1) || String.eqb p.2 q.2) ps) ps.

(** The last argument the builder writes: the last truthy one in the order
    text, tip, value. *)
Definition last_written (text tip value : jsval) : jsval :=
  if truthy value then value else if truthy tip then tip else text.

(** An argument of the builder that, when a string, does not end in [;];
    an object is written as the string it converts to. *)
Definition no_trailing_semicolon (v : jsval) : bool :=
  match v with
  | JStr n => negb (ends_with_semicolon n)
  | JObject _ repr => negb (ends_with_semicolon repr)
  | _ => true
  end.

(** The pair the builder writes for one argument: none for a falsy one. *)
Definition written (type : string) (name : jsval)
  : list (string * string) :=
  if truthy name then [(type, ToString name)] else [].

(** The pairs the builder writes for its three arguments, in its order. *)
Definition built_pairs (text tip value : jsval) : list (string * string) :=
  written TransMarkSet.types.TEXT text
  ++ written TransMarkSet.types.TIP tip
  ++ written TransMarkSet.types.VALUE value.

(** The token sequence of a list of pairs. *)
Fixpoint tokens_of (ps : list (string * string)) : list string :=
  match ps with
  | [] => []
  | p :: ps' => p.1 :: p.2 :: tokens_of ps'
  end.

(** Neither component of the pair contains a separator. *)
Definition pair_no_delim (p : string * string) : Prop :=
  has_delim p.1 = false ∧ has_delim p.2 = false.

(** ** Reading the effect of the translators *)

(** The four translators; each of them sets the tip of its element. *)
Definition translators (lang : Language)
  : list (Element → Tips.t → Element * Tips.t) :=
  [TransMarkSet.transLanguageForSpanElem lang;
   TransMarkSet.transLanguageForInputElem lang;
   TransMarkSet.transLanguageForSelectElem lang;
   TransMarkSet.transLanguageForLinkElem lang].

(** The tip [T] followed by the text [ Range=] and the value of the
    [range] attribute when the element has a non-empty one, and [T] alone
    otherwise. *)
Definition tip_with_range (T : string) (range : jsval) : string :=
  match range with
  | JStr R => if String.eqb R "" then T else (T +:+ " Range=") +:+ R
  | _ => T
  end.

(** Whether a lookup of [key] in [table] finds nothing: no own entry and
    no inherited property. *)
Definition no_entry (table : Table) (key : string) : bool :=
  bool_decide (own table !! key = None)
  && bool_decide (inherited table !! key = None).

(** Nothing to apply for [type] on [elem]: the marker attribute is absent
    or empty, or [table] has no entry, own or inherited, under the key that
    the name found for [type] in the marker gives (the key is [null] when
    no name is found). *)
Definition unresolved (table : Table) (type : string)
    (elem : Element) : bool :=
  match getAttribute elem TRANSMARK_ATTRNAME with
  | JStr mark =>
      String.eqb mark ""
      || no_entry table (ToString (TransMarkSet.getMark_ mark type))
  | _ => true
  end.

(** [after] is [before] but for its rendered content. *)
Definition same_but_innerHTML (before after : Element) : Prop :=
  attributes after = attributes before ∧ value after = value before
  ∧ tip after = tip before ∧ options after = options before.

(** ** Recording the calls made to a modifier *)

Record call : Type := mkCall { call_type : string; call_name : jsval }.

(** [recording modifier] behaves as [modifier] and appends each call it
    receives to a log kept beside the modifier's own state. *)
Definition recording {S : Type} (modifier : string → jsval → S → jsval * S)
    (type : string) (name : jsval) (st : S * list call)
  : jsval * (S * list call) :=
  let '(r, s') := modifier type name st.1 in
  (r, (s', st.2 ++ [mkCall type name])).

(** ** Auxiliary readings used by the further properties *)

(** An argument as the builder takes it: a falsy one counts as [null]. *)
Definition present_or_null (v : jsval) : jsval :=
  if truthy v then v else JNull.

(** The modifier that returns every name as it receives it. *)
Definition keep_names (type : string) (name : jsval) (s : unit)
  : jsval * unit :=
  (name, s).

(** [if (v) elem.innerHTML = v], [if (v) elem.value = v] and
    [if (v) elem.tip = v]: the guarded assignments of the translators. *)
Definition put_innerHTML (v : jsval) (elem : Element) : Element :=
  if truthy v then set_innerHTML elem v else elem.

Definition put_value (v : jsval) (elem : Element) : Element :=
  if truthy v then set_value elem v else elem.

Definition put_tip (v : jsval) (elem : Element) : Element :=
  if truthy v then set_tip elem v else elem.

(** ** Examples *)

Example getMark_ex1 :
  TransMarkSet.getMark_ "text:mark1;tip:mark2" "tip" = JStr "mark2".
Proof. reflexivity. Qed.

Example fillMark_ex1 :
  TransMarkSet.fillMark_ (JStr "a") JNull (JStr "c") = JStr "text:a;value:c".
Proof. reflexivity. Qed.

(** ** Strings *)

Section Strings.

Lemma string_app_nil_l (s : string) : "" +:+ s = s.
Proof. reflexivity. Qed.

Lemma string_app_cons (c : ascii) (a b : string) :
  String c a +:+ b = String c (a +:+ b).
Proof. reflexivity. Qed.

Lemma string_app_nil_r (s : string) : s +:+ "" = s.
Proof.
  induction s as [|c s IH]; [reflexivity|].
  rewrite string_app_cons. by rewrite IH.
Qed.

Lemma string_app_assoc (a b c : string) : (a +:+ b) +:+ c = a +:+ (b +:+ c).
Proof.
  induction a as [|x a IH]; [reflexivity|].
  rewrite !string_app_cons. by rewrite IH.
Qed.

Lemma string_length_app (a b : string) :
  String.length (a +:+ b) = String.length a + String.length b.
Proof.
  induction a as [|x a IH]; [reflexivity|].
  rewrite string_app_cons. simpl. by rewrite IH.
Qed.

Lemma substring_prefix (a b : string) :
  String.substring 0 (String.length a) (a +:+ b) = a.
Proof.
  induction a as [|x a IH].
  - simpl. by destruct b.
  - rewrite string_app_cons. simpl. by rewrite IH.
Qed.

Lemma slice_snoc (s : string) (c : ascii) :
  slice_0_m1 (s +:+ String c "") = s.
Proof.
  unfold slice_0_m1. rewrite string_length_app. simpl.
  replace (String.length s + 1 - 1) with (String.length s) by lia.
  apply substring_prefix.
Qed.

Lemma string_app_eq_nil (a b : string) : a +:+ b = "" → a = "" ∧ b = "".
Proof.
  destruct a; [intros H; by split|].
  rewrite string_app_cons. discriminate.
Qed.

Lemma ends_with_semicolon_app (a b : string) :
  b ≠ "" → ends_with_semicolon (a +:+ b) = ends_with_semicolon b.
Proof.
  intros Hb. induction a as [|x a IH]; [reflexivity|].
  rewrite string_app_cons. simpl. rewrite IH.
  destruct (a +:+ b) eqn:E; [|reflexivity].
  apply string_app_eq_nil in E as [_ ?]. contradiction.
Qed.

End Strings.

(** ** Splitting *)

Section Split.

Lemma split_not_nil (s : string) : split s ≠ [].
Proof.
  induction s as [|c s IH]; simpl; [discriminate|].
  destruct (is_delim c); [discriminate|].
  by destruct (split s).
Qed.

Lemma split_length_pos (s : string) : 1 ≤ length (split s).
Proof.
  pose proof (split_not_nil s). destruct (split s); simpl; [done|lia].
Qed.

(** A string without separators is its own single token. *)
Lemma split_no_delim (s : string) : has_delim s = false → split s = [s].
Proof.
  induction s as [|c s IH]; simpl; [done|].
  intros [Hc Hs]%orb_false_iff. rewrite Hc. by rewrite (IH Hs).
Qed.

(** A separator-free prefix up to a separator is the first token. *)
Lemma split_token (a : string) (d : ascii) (b : string) :
  has_delim a = false → is_delim d = true →
  split (a +:+ String d b) = a :: split b.
Proof.
  intros Ha Hd. induction a as [|c a IH].
  - rewrite string_app_nil_l. simpl. by rewrite Hd.
  - simpl in Ha. apply orb_false_iff in Ha as [Hc Ha].
    rewrite string_app_cons. simpl. rewrite Hc. by rewrite (IH Ha).
Qed.

(** No token contains a separator. *)
Lemma split_tokens_no_delim (s : string) :
  Forall (λ t, has_delim t = false) (split s).
Proof.
  induction s as [|c s IH]; simpl.
  - by constructor.
  - destruct (is_delim c) eqn:Hc; [by constructor|].
    destruct (split s) as [|t ts]; [by constructor; [simpl; rewrite Hc|]|].
    inversion IH; subst. constructor; [|done].
    simpl. rewrite Hc. done.
Qed.

End Split.

(** ** The parser as a search through the pairs *)

Section Parser.

Import TransMarkSet.

Lemma pairs_tokens_of (ps : list (string * string)) :
  pairs (tokens_of ps) = ps.
Proof. induction ps as [|[c n] ps IH]; simpl; [done|]. by rewrite IH. Qed.

Lemma pairs_short (toks : list string) : length toks < 2 → pairs toks = [].
Proof. destruct toks as [|a [|b toks]]; simpl; [done..|lia]. Qed.

Lemma index_lookup (arr : list string) (i : nat) (x : string) :
  arr !! i = Some x → index arr i = JStr x.
Proof. unfold index. by intros ->. Qed.

(** The loop entered at [i] searches the pairs from token [i] on. *)
Lemma getMark_loop_spec (marks : list string) (type : string) (i : nat) :
  getMark_loop marks type i = first_match type (pairs (drop i marks)).
Proof.
  funelim (getMark_loop marks type i).
  - destruct (lookup_lt_is_Some_2 marks i) as [a Ha]; [lia|].
    destruct (lookup_lt_is_Some_2 marks (i + 1)) as [b Hb]; [lia|].
    rewrite (drop_S _ _ _ Ha).
    replace (S i) with (i + 1) by lia.
    rewrite (drop_S _ _ _ Hb).
    replace (S (i + 1)) with (i + 2) by lia.
    rewrite (index_lookup _ _ _ Ha), (index_lookup _ _ _ Hb). simpl.
    destruct (String.eqb a type); [done|].
    match goal with IH : getMark_loop _ _ _ = first_match _ _ |- _ =>
      apply IH end.
  - rewrite pairs_short; [done|]. rewrite length_drop. lia.
Qed.

(** [getMark_] returns the name of the first pair of the requested type. *)
Lemma getMark_spec (markset type : string) :
  getMark_ markset type = first_match type (markset_pairs markset).
Proof.
  unfold getMark_, markset_pairs. case_decide as Hlen.
  - by rewrite pairs_short.
  - by rewrite getMark_loop_spec.
Qed.

Lemma first_match_name (type : string) (ps : list (string * string))
    (n : string) :
  first_match type ps = JStr n → (type, n) ∈ ps.
Proof.
  induction ps as [|[c m] ps IH]; simpl; [done|].
  destruct (String.eqb_spec c type) as [->|_].
  - intros [= ->]. left.
  - intros H. right. by apply IH.
Qed.

Lemma first_match_none (type : string) (ps : list (string * string)) :
  first_match type ps = JNull ↔ ∀ n, (type, n) ∉ ps.
Proof.
  induction ps as [|[c m] ps IH]; simpl.
  - split; [|done]. intros _ n H. inversion H.
  - destruct (String.eqb_spec c type) as [->|Hne].
    + split; [done|]. intros H. destruct (H m). left.
    + rewrite IH. split.
      * intros H n Hin. inversion Hin; subst; [done|]. by apply (H n).
      * intros H n Hin. apply (H n). by right.
Qed.

Lemma first_match_not_object (type : string) (ps : list (string * string))
    (id : nat) (repr : string) :
  first_match type ps ≠ JObject id repr.
Proof.
  induction ps as [|[c m] ps IH]; simpl; [done|].
  by destruct (String.eqb c type).
Qed.

Lemma first_match_not_undefined (type : string)
    (ps : list (string * string)) :
  first_match type ps ≠ JUndefined.
Proof.
  induction ps as [|[c m] ps IH]; simpl; [done|].
  by destruct (String.eqb c type).
Qed.

Lemma pairs_no_delim (toks : list string) :
  Forall (λ t, has_delim t = false) toks → Forall pair_no_delim (pairs toks).
Proof.
  revert toks. fix IH 1. intros [|c [|n rest]] H; simpl; [constructor..|].
  inversion H as [|? ? Hc H']; subst. inversion H' as [|? ? Hn H'']; subst.
  constructor; [by split|]. by apply IH.
Qed.

(** A name returned by [getMark_] contains no separator. *)
Lemma getMark_no_delim (markset type n : string) :
  getMark_ markset type = JStr n → has_delim n = false.
Proof.
  rewrite getMark_spec. intros Hin%first_match_name.
  pose proof (pairs_no_delim _ (split_tokens_no_delim markset)) as Hall.
  rewrite Forall_forall in Hall. by destruct (Hall _ Hin).
Qed.

End Parser.

(** ** The builder as a writer of pairs *)

Section Builder.

Import TransMarkSet.

(** [fillMark_] writes the pairs of its truthy arguments, separated by
    [;], and returns [null] when there is none. *)
Lemma fillMark_spec (text tip value : jsval) :
  fillMark_ text tip value =
  match built_pairs text tip value with
  | [] => JNull
  | ps => JStr (write_pairs ps)
  end.
Proof.
  unfold fillMark_, built_pairs, written.
  destruct (truthy text), (truthy tip), (truthy value); simpl;
    unfold write_pair; simpl;
    rewrite ?string_app_nil_l; try reflexivity;
    rewrite <- ?string_app_assoc; rewrite slice_snoc; reflexivity.
Qed.

Lemma write_pair_split (p : string * string) (d : ascii) (rest : string) :
  pair_no_delim p → is_delim d = true →
  split (write_pair p +:+ String d rest) = p.1 :: p.2 :: split rest.
Proof.
  intros [Hc Hn] Hd. unfold write_pair.
  rewrite !string_app_assoc, string_app_cons, string_app_nil_l.
  rewrite split_token; [|done..]. by rewrite split_token.
Qed.

(** Splitting the written form of separator-free pairs gives back their
    tokens. *)
Lemma split_write_pairs (ps : list (string * string)) :
  ps ≠ [] → Forall pair_no_delim ps →
  split (write_pairs ps) = tokens_of ps.
Proof.
  induction ps as [|p ps IH]; [done|]. intros _ Hall.
  inversion Hall as [|? ? Hp Hps]; subst.
  destruct ps as [|q ps].
  - simpl. destruct Hp as [Hc Hn]. unfold write_pair.
    rewrite string_app_assoc, string_app_cons, string_app_nil_l, split_token; [|done..].
    by rewrite split_no_delim.
  - change (write_pairs (p :: q :: ps))
      with ((write_pair p +:+ ";") +:+ write_pairs (q :: ps)).
    rewrite string_app_assoc, string_app_cons, string_app_nil_l.
    rewrite write_pair_split; [|done..].
    rewrite IH; [done..|]. exact Hps.
Qed.

Lemma markset_pairs_write (ps : list (string * string)) :
  ps ≠ [] → Forall pair_no_delim ps →
  markset_pairs (write_pairs ps) = ps.
Proof.
  intros Hne Hall. unfold markset_pairs.
  rewrite split_write_pairs; [|done..]. apply pairs_tokens_of.
Qed.

Lemma valid_name_inv (n : string) :
  valid_name n = true → n ≠ "" ∧ has_delim n = false.
Proof.
  unfold valid_name. intros [H1 H2]%andb_true_iff.
  apply negb_true_iff in H1, H2. by apply String.eqb_neq in H1.
Qed.

Lemma written_name_arg (type : string) (name : jsval) :
  name_arg name = true →
  written type name =
  match name with JStr n => [(type, n)] | _ => [] end.
Proof.
  unfold written. destruct name as [| |n|]; simpl; [done|done| |done].
  intros [Hn _]%valid_name_inv. apply String.eqb_neq in Hn. by rewrite Hn.
Qed.

Lemma written_no_delim (type : string) (name : jsval) :
  has_delim type = false → name_arg name = true →
  Forall pair_no_delim (written type name).
Proof.
  intros Ht Hn. rewrite written_name_arg; [|done].
  destruct name as [| |n|]; [constructor|constructor| |constructor].
  apply valid_name_inv in Hn as [_ Hn]. by repeat constructor.
Qed.

Lemma built_pairs_no_delim (text tip value : jsval) :
  name_arg text = true → name_arg tip = true → name_arg value = true →
  Forall pair_no_delim (built_pairs text tip value).
Proof.
  intros. unfold built_pairs.
  repeat apply Forall_app_2; by apply written_no_delim.
Qed.

End Builder.

(** ** Parsing what the builder wrote *)

Section RoundTrip.

Import TransMarkSet.

Lemma built_pairs_not_nil (text tip value : jsval) :
  truthy text = true ∨ truthy tip = true ∨ truthy value = true →
  built_pairs text tip value ≠ [].
Proof.
  unfold built_pairs, written.
  intros [H|[H|H]]; rewrite H;
    destruct (truthy text), (truthy tip), (truthy value); discriminate.
Qed.

Lemma name_arg_truthy (v : jsval) :
  name_arg v = true → v ≠ JNull → truthy v = true.
Proof.
  destruct v as [| |n|]; simpl; [done|done| |done].
  intros [Hn _]%valid_name_inv _. apply String.eqb_neq in Hn.
  by rewrite Hn.
Qed.

Lemma first_match_built (text tip value : jsval) :
  name_arg text = true → name_arg tip = true → name_arg value = true →
  first_match types.TEXT (built_pairs text tip value) = text
  ∧ first_match types.TIP (built_pairs text tip value) = tip
  ∧ first_match types.VALUE (built_pairs text tip value) = value.
Proof.
  intros Ht Hp Hv. unfold built_pairs.
  rewrite !written_name_arg by done.
  destruct text as [| |t|], tip as [| |p|], value as [| |v|];
    try discriminate; done.
Qed.

(** C1. For every triple of builder arguments, each absent ([null]) or a
    present mark name (non-empty, without [:] and [;]), with at least one
    present: [fillMark_] returns a markset string, and [getMark_] on it
    returns, for each of the three types, the argument supplied for that
    type: the original name when present, [null] when absent. *)
Theorem parse_after_build (text tip value : jsval) :
  name_arg text = true → name_arg tip = true → name_arg value = true →
  text ≠ JNull ∨ tip ≠ JNull ∨ value ≠ JNull →
  ∃ markset,
    fillMark_ text tip value = JStr markset
    ∧ getMark_ markset types.TEXT = text
    ∧ getMark_ markset types.TIP = tip
    ∧ getMark_ markset types.VALUE = value.
Proof.
  intros Ht Hp Hv Hsome.
  assert (built_pairs text tip value ≠ []) as Hne.
  { apply built_pairs_not_nil.
    destruct Hsome as [H|[H|H]]; [left|right; left|right; right];
      by apply name_arg_truthy. }
  pose proof (built_pairs_no_delim _ _ _ Ht Hp Hv) as Hall.
  pose proof (first_match_built _ _ _ Ht Hp Hv) as (H1 & H2 & H3).
  exists (write_pairs (built_pairs text tip value)).
  rewrite fillMark_spec, !getMark_spec, markset_pairs_write by done.
  destruct (built_pairs text tip value); done.
Qed.

Lemma parse_after_build_witness :
  name_arg (JStr "mark1") = true ∧ name_arg JNull = true
  ∧ name_arg (JStr "mark3") = true
  ∧ ∃ markset,
      fillMark_ (JStr "mark1") JNull (JStr "mark3") = JStr markset
      ∧ getMark_ markset types.TEXT = JStr "mark1"
      ∧ getMark_ markset types.TIP = JNull
      ∧ getMark_ markset types.VALUE = JStr "mark3".
Proof.
  split; [reflexivity|]. split; [reflexivity|]. split; [reflexivity|].
  apply (parse_after_build (JStr "mark1") JNull (JStr "mark3"));
    [reflexivity..|].
  left. discriminate.
Defined.

Lemma write_pairs_elem (p : string * string)
    (ps : list (string * string)) :
  p ∈ ps → ∃ pre post, write_pairs ps = pre +:+ (write_pair p +:+ post).
Proof.
  induction ps as [|q ps IH]; [by intros H; inversion H|].
  intros H. destruct ps as [|r ps].
  - apply list_elem_of_singleton in H as ->.
    exists "", "". simpl. by rewrite string_app_nil_r.
  - change (write_pairs (q :: r :: ps))
      with ((write_pair q +:+ ";") +:+ write_pairs (r :: ps)).
    apply elem_of_cons in H as [->|H].
    + exists "", (";" +:+ write_pairs (r :: ps)).
      by rewrite string_app_nil_l, string_app_assoc.
    + destruct (IH H) as (pre & post & ->).
      exists ((write_pair q +:+ ";") +:+ pre), post.
      by rewrite !string_app_assoc.
Qed.

Lemma has_delim_truthy (n : string) :
  has_delim n = true → truthy (JStr n) = true.
Proof. by destruct n. Qed.

(** C10. Whenever the name passed to [fillMark_] for a type contains [:]
    or [;], the result is a markset string that contains the text
    [type:name] verbatim, and [getMark_] of that type on the result does
    not return the name: parsing after building gives a name back only
    if the name is free of the two separators. *)
Theorem delimiter_breaks_round_trip (text tip value : jsval)
    (type n : string) :
  has_delim n = true →
  (type, JStr n) ∈
    [(types.TEXT, text); (types.TIP, tip); (types.VALUE, value)] →
  ∃ markset pre post,
    fillMark_ text tip value = JStr markset
    ∧ markset = pre +:+ (((type +:+ ":") +:+ n) +:+ post)
    ∧ getMark_ markset type ≠ JStr n.
Proof.
  intros Hd Hin.
  assert ((type, n) ∈ built_pairs text tip value) as Hps.
  { unfold built_pairs, written.
    pose proof (has_delim_truthy _ Hd) as Ht.
    rewrite !elem_of_cons in Hin.
    destruct Hin as [[= -> <-]|[[= -> <-]|[[= -> <-]|Hin]]];
      [..|by inversion Hin]; rewrite Ht; rewrite !elem_of_app.
    - left. left.
    - right. left. left.
    - right. right. left. }
  destruct (write_pairs_elem _ _ Hps) as (pre & post & Hw).
  exists (write_pairs (built_pairs text tip value)), pre, post.
  split; [|split].
  - rewrite fillMark_spec.
    destruct (built_pairs text tip value); [by inversion Hps|done].
  - exact Hw.
  - intros Hg%getMark_no_delim. congruence.
Qed.

Lemma delimiter_breaks_round_trip_witness :
  has_delim "a:b" = true
  ∧ ∃ markset pre post,
      fillMark_ JNull (JStr "a:b") JNull = JStr markset
      ∧ markset = pre +:+ (((types.TIP +:+ ":") +:+ "a:b") +:+ post)
      ∧ getMark_ markset types.TIP ≠ JStr "a:b".
Proof.
  split; [reflexivity|].
  apply (delimiter_breaks_round_trip JNull (JStr "a:b") JNull types.TIP "a:b");
    [reflexivity|].
  right. left.
Defined.

End RoundTrip.

(** ** The scan of [getMark_] *)

Section Scan.

Import TransMarkSet.

Lemma first_match_app (type : string) (before rest : list (string * string)) :
  forallb (λ p, negb (String.eqb p.1 type)) before = true →
  first_match type (before ++ rest) = first_match type rest.
Proof.
  induction before as [|[c m] before IH]; simpl; [done|].
  intros [Hc Hb]%andb_true_iff. apply negb_true_iff in Hc.
  rewrite Hc. by apply IH.
Qed.

(** C6. When the pairs of a markset string, in the order they stand in
    the string, are [before], then a pair of the requested type with name
    [n], then [after], and no pair of [before] has the requested type,
    [getMark_] returns [n], whatever pairs of the same type follow in
    [after]: the first matching pair wins. *)
Theorem first_match_wins (markset type n : string)
    (before after : list (string * string)) :
  markset_pairs markset = before ++ (type, n) :: after →
  forallb (λ p, negb (String.eqb p.1 type)) before = true →
  getMark_ markset type = JStr n.
Proof.
  intros Hps Hbefore. rewrite getMark_spec, Hps.
  rewrite first_match_app by done. simpl.
  by rewrite String.eqb_refl.
Qed.

Lemma first_match_wins_witness :
  markset_pairs "tip:t;text:a;value:v;text:b" =
    [("tip", "t")] ++ ("text", "a") :: [("value", "v"); ("text", "b")]
  ∧ getMark_ "tip:t;text:a;value:v;text:b" "text" = JStr "a".
Proof.
  split; [reflexivity|].
  apply (first_match_wins "tip:t;text:a;value:v;text:b" "text" "a"
           [("tip", "t")] [("value", "v"); ("text", "b")]);
    reflexivity.
Defined.

Lemma pairs_snoc_even (toks : list string) (last : string) :
  Nat.even (length toks) = true → pairs (toks ++ [last]) = pairs toks.
Proof.
  revert toks. fix IH 1. intros [|c [|n rest]]; simpl; [done..|].
  intros H. f_equal. by apply IH.
Qed.

(** Against C5 as stated: the markset [tip:a;b] splits into three tokens,
    [tip], [a] and [b], and still yields the name [a] for the type
    [tip]. *)
Lemma odd_tokens_not_null :
  Nat.odd (length (split "tip:a;b")) = true
  ∧ ¬ (getMark_ "tip:a;b" types.TEXT = JNull
       ∧ getMark_ "tip:a;b" types.TIP = JNull
       ∧ getMark_ "tip:a;b" types.VALUE = JNull).
Proof. split; [reflexivity|]. intros (_ & H & _). discriminate H. Qed.

(** C5, amended. When a markset string splits into an odd number of
    tokens, the last token has no partner and is ignored: [getMark_]
    returns the name of the first of the complete pairs before it that has
    the requested type, and [null] when none has; in particular it
    returns [null] for every type when the string splits into fewer than
    2 tokens. *)
Theorem unpaired_last_token_ignored (markset type last : string)
    (toks : list string) :
  split markset = toks ++ [last] → Nat.even (length toks) = true →
  getMark_ markset type = first_match type (pairs toks)
  ∧ (length (split markset) < 2 → getMark_ markset type = JNull).
Proof.
  intros Hsplit Heven. rewrite getMark_spec. unfold markset_pairs.
  split.
  - by rewrite Hsplit, pairs_snoc_even.
  - intros Hlen. by rewrite pairs_short.
Qed.

Lemma unpaired_last_token_ignored_witness :
  split "tip:a;b" = ["tip"; "a"] ++ ["b"]
  ∧ getMark_ "tip:a;b" "tip" = first_match "tip" (pairs ["tip"; "a"])
  ∧ split "text" = [] ++ ["text"]
  ∧ getMark_ "text" "text" = JNull.
Proof.
  split; [reflexivity|]. split.
  - apply (unpaired_last_token_ignored "tip:a;b" "tip" "b" ["tip"; "a"]);
      reflexivity.
  - split; [reflexivity|].
    apply (unpaired_last_token_ignored "text" "text" "text" []);
      [reflexivity..|]. simpl. lia.
Defined.

End Scan.

(** ** The result of the builder *)

Section BuilderResult.

Import TransMarkSet.

Lemma write_pair_not_nil (p : string * string) : write_pair p ≠ "".
Proof.
  unfold write_pair. intros [[_ H]%string_app_eq_nil _]%string_app_eq_nil. discriminate.
Qed.

Lemma write_pairs_not_nil (ps : list (string * string)) :
  ps ≠ [] → write_pairs ps ≠ "".
Proof.
  destruct ps as [|p [|q ps]]; [done|..]; intros _.
  - apply write_pair_not_nil.
  - change (write_pairs (p :: q :: ps))
      with ((write_pair p +:+ ";") +:+ write_pairs (q :: ps)).
    intros [[H _]%string_app_eq_nil _]%string_app_eq_nil.
    by apply write_pair_not_nil in H.
Qed.

Lemma write_pairs_cons (p : string * string)
    (ps : list (string * string)) :
  ps ≠ [] →
  write_pairs (p :: ps) = (write_pair p +:+ ";") +:+ write_pairs ps.
Proof. by destruct ps. Qed.

(** The written form ends as the name of its last pair does. *)
Lemma write_pairs_end (ps : list (string * string)) (p : string * string) :
  ends_with_semicolon (write_pairs (ps ++ [p])) = ends_with_semicolon p.2.
Proof.
  induction ps as [|q ps IH].
  - simpl. unfold write_pair. destruct (p.2) as [|c n].
    + by rewrite string_app_nil_r, ends_with_semicolon_app.
    + by rewrite ends_with_semicolon_app.
  - assert (ps ++ [p] ≠ []) as Hne by by destruct ps.
    change ((q :: ps) ++ [p]) with (q :: (ps ++ [p])).
    rewrite write_pairs_cons by done.
    rewrite ends_with_semicolon_app; [done|].
    by apply write_pairs_not_nil.
Qed.

Lemma written_truthy (type : string) (name : jsval) :
  truthy name = true → written type name = [(type, ToString name)].
Proof. unfold written. by intros ->. Qed.

Lemma written_falsy (type : string) (name : jsval) :
  truthy name = false → written type name = [].
Proof. unfold written. by intros ->. Qed.

(** The last pair the builder writes is that of the last truthy
    argument. *)
Lemma built_pairs_last (text tip value : jsval) :
  built_pairs text tip value ≠ [] →
  truthy (last_written text tip value) = true
  ∧ ∃ init type,
      built_pairs text tip value
      = init ++ [(type, ToString (last_written text tip value))].
Proof.
  unfold built_pairs, last_written.
  destruct (truthy value) eqn:Hv; [|destruct (truthy tip) eqn:Hp].
  - intros _. split; [done|].
    exists (written types.TEXT text ++ written types.TIP tip), types.VALUE.
    by rewrite (written_truthy _ _ Hv), app_assoc.
  - intros _. split; [done|].
    exists (written types.TEXT text), types.TIP.
    by rewrite (written_truthy _ _ Hp), (written_falsy _ _ Hv), app_nil_r.
  - rewrite (written_falsy _ _ Hp), (written_falsy _ _ Hv), !app_nil_r.
    destruct (truthy text) eqn:Ht.
    + intros _. split; [done|]. exists [], types.TEXT.
      by rewrite (written_truthy _ _ Ht).
    + by rewrite (written_falsy _ _ Ht).
Qed.

(** Against C4 as stated: the name [a;] is written verbatim, and its own
    [;] is left at the end once the builder has removed the one it
    appended. *)
Lemma trailing_semicolon_kept :
  ∃ markset,
    fillMark_ (JStr "a;") JNull JNull = JStr markset
    ∧ ends_with_semicolon markset = true.
Proof. exists "text:a;". split; reflexivity. Qed.

(** C4, amended. With all three names absent ([null]), [fillMark_]
    returns [null], not a string.  When the last name written (the last
    present one in the order text, tip, value) does not itself end in [;],
    as is the case of every name free of separators, every string
    [fillMark_] returns is non-empty and does not end in [;]. *)
Theorem fillMark_no_trailing_separator (text tip value : jsval) :
  no_trailing_semicolon (last_written text tip value) = true →
  fillMark_ JNull JNull JNull = JNull
  ∧ ∀ markset,
      fillMark_ text tip value = JStr markset →
      markset ≠ "" ∧ ends_with_semicolon markset = false.
Proof.
  intros Hlast. split; [reflexivity|].
  intros markset. rewrite fillMark_spec.
  destruct (built_pairs text tip value) as [|p ps] eqn:E; [done|].
  intros Heq.
  assert (markset = write_pairs (built_pairs text tip value)) as ->
    by congruence.
  assert (built_pairs text tip value ≠ []) as Hne by by rewrite E.
  split; [by apply write_pairs_not_nil|].
  destruct (built_pairs_last _ _ _ Hne) as (Htruthy & init & type & ->).
  rewrite write_pairs_end.
  destruct (last_written text tip value) as [| |n|]; [done|done|..];
    by apply negb_true_iff in Hlast.
Qed.

Lemma fillMark_no_trailing_separator_witness :
  no_trailing_semicolon (last_written (JStr "a;") (JStr "mark2") JNull)
  = true
  ∧ fillMark_ JNull JNull JNull = JNull
  ∧ ∀ markset,
      fillMark_ (JStr "a;") (JStr "mark2") JNull = JStr markset →
      markset ≠ "" ∧ ends_with_semicolon markset = false.
Proof.
  split; [reflexivity|].
  apply (fillMark_no_trailing_separator (JStr "a;") (JStr "mark2") JNull).
  reflexivity.
Defined.

End BuilderResult.

(** ** Modifying a markset *)

Section Modify.

Import TransMarkSet.

Context {S : Type}.

(** C3. For every markset string and every modifier, run from any state:
    [modifyMark] calls the modifier three times and no more, first for
    [text], then for [tip], then for [value], each time with the name
    [getMark_] finds for that type ([null] when the markset has none), each
    call acting on the state the previous one left; the result is
    [fillMark_] of the three names the calls returned. *)
Theorem modifyMark_calls (markset : string)
    (modifier : string → jsval → S → jsval * S) (s : S) :
  let r1 := modifier types.TEXT (getMark_ markset types.TEXT) s in
  let r2 := modifier types.TIP (getMark_ markset types.TIP) r1.2 in
  let r3 := modifier types.VALUE (getMark_ markset types.VALUE) r2.2 in
  modifyMark markset (recording modifier) (s, []) =
  (fillMark_ r1.1 r2.1 r3.1,
   (r3.2, [mkCall types.TEXT (getMark_ markset types.TEXT);
           mkCall types.TIP (getMark_ markset types.TIP);
           mkCall types.VALUE (getMark_ markset types.VALUE)]))
  ∧ modifyMark markset modifier s = (fillMark_ r1.1 r2.1 r3.1, r3.2).
Proof.
  intros r1 r2 r3. subst r1 r2 r3.
  unfold modifyMark, recording. simpl.
  destruct (modifier types.TEXT _ s) as [t s1]. simpl.
  destruct (modifier types.TIP _ s1) as [p s2]. simpl.
  destruct (modifier types.VALUE _ s2) as [v s3]. done.
Qed.

End Modify.

(** ** Building from what the parser found *)

Section Rebuild.

Import TransMarkSet.

Lemma pairs_not_nil (toks : list string) :
  2 ≤ length toks → pairs toks ≠ [].
Proof. destruct toks as [|a [|b toks]]; simpl; [lia..|done]. Qed.

Lemma even_length_split (markset : string) :
  Nat.even (length (split markset)) = true → 2 ≤ length (split markset).
Proof.
  pose proof (split_length_pos markset) as H.
  destruct (split markset) as [|a [|b toks]]; simpl in *; [lia|done|lia].
Qed.

Lemma well_formed_inv (markset : string) :
  well_formed markset = true →
  markset_pairs markset ≠ []
  ∧ Forall (λ p, is_type p.1 = true ∧ valid_name p.2 = true)
      (markset_pairs markset).
Proof.
  unfold well_formed, markset_pairs.
  intros [Heven Hall]%andb_true_iff. split.
  - by apply pairs_not_nil, even_length_split.
  - pose proof (pairs_no_delim _ (split_tokens_no_delim markset)) as Hnd.
    rewrite forallb_forall in Hall. rewrite Forall_forall in Hnd |- *.
    intros p Hp. destruct (Hnd p Hp) as [_ Hn].
    apply list_elem_of_In, Hall in Hp.
    apply andb_true_iff in Hp as [Hc Hne]. split; [done|].
    unfold valid_name. by rewrite Hne, Hn.
Qed.

Lemma is_type_inv (c : string) :
  is_type c = true →
  c = types.TEXT ∨ c = types.TIP ∨ c = types.VALUE.
Proof.
  unfold is_type. rewrite !orb_true_iff, !String.eqb_eq. tauto.
Qed.

Lemma is_type_no_delim (c : string) : is_type c = true → has_delim c = false.
Proof. intros [-> | [-> | ->]]%is_type_inv; reflexivity. Qed.

Lemma tokens_of_even (ps : list (string * string)) :
  Nat.even (length (tokens_of ps)) = true.
Proof. induction ps as [|p ps IH]; [done|]. exact IH. Qed.

(** Every string of the marker grammar, pairs [type:name] with a type
    among the three and a present name, separated by [;], is
    well-formed. *)
Lemma write_pairs_well_formed (ps : list (string * string)) :
  ps ≠ [] →
  Forall (λ p, is_type p.1 = true ∧ valid_name p.2 = true) ps →
  well_formed (write_pairs ps) = true.
Proof.
  intros Hne Hall. unfold well_formed.
  assert (Forall pair_no_delim ps) as Hnd.
  { eapply Forall_impl; [exact Hall|]. intros p [Hc Hn]. split.
    - by apply is_type_no_delim.
    - by apply valid_name_inv in Hn as [_ Hn]. }
  rewrite split_write_pairs, pairs_tokens_of, tokens_of_even by done.
  simpl. apply forallb_forall. intros p Hp%list_elem_of_In.
  rewrite Forall_forall in Hall. destruct (Hall p Hp) as [Hc Hn].
  apply valid_name_inv in Hn as [Hn _]. apply String.eqb_neq in Hn.
  by rewrite Hc, Hn.
Qed.

Lemma first_match_some (type n : string) (ps : list (string * string)) :
  (type, n) ∈ ps → ∃ n', first_match type ps = JStr n'.
Proof.
  intros Hin. destruct (first_match type ps) as [| |n'|] eqn:E;
    [| |by exists n'|by apply first_match_not_object in E].
  - rewrite first_match_none in E. by destruct (E n).
  - by apply first_match_not_undefined in E.
Qed.

Lemma single_valued_spec (ps : list (string * string)) (c n n' : string) :
  single_valued ps = true → (c, n) ∈ ps → (c, n') ∈ ps → n = n'.
Proof.
  unfold single_valued. rewrite forallb_forall.
  intros H Hn%list_elem_of_In Hn'%list_elem_of_In.
  specialize (H _ Hn). rewrite forallb_forall in H.
  specialize (H _ Hn'). simpl in H. rewrite String.eqb_refl in H.
  by apply String.eqb_eq in H.
Qed.

Lemma first_match_name_arg (type : string) (ps : list (string * string)) :
  Forall (λ p, is_type p.1 = true ∧ valid_name p.2 = true) ps →
  name_arg (first_match type ps) = true.
Proof.
  induction 1 as [|[c n] ps [_ Hn] _ IH]; simpl; [done|].
  by destruct (String.eqb c type).
Qed.

Lemma elem_of_built_pairs (text tip value : jsval) (c n : string) :
  name_arg text = true → name_arg tip = true → name_arg value = true →
  (c, n) ∈ built_pairs text tip value ↔
  (c = types.TEXT ∧ text = JStr n) ∨ (c = types.TIP ∧ tip = JStr n)
  ∨ (c = types.VALUE ∧ value = JStr n).
Proof.
  intros Ht Hp Hv. unfold built_pairs.
  rewrite !written_name_arg by done. rewrite !elem_of_app.
  destruct text as [| |t|], tip as [| |p|], value as [| |v|];
    try discriminate;
    rewrite ?list_elem_of_singleton, ?elem_of_nil;
    split; intros H; intuition (try discriminate; try congruence).
Qed.

(** Against C2 as stated: the markset [text:a;text:b] gives the type
    [text] two names; the markset rebuilt from it holds the pair of the
    first only. *)
Lemma conflicting_pair_lost :
  well_formed "text:a;text:b" = true
  ∧ ¬ (∀ p,
         p ∈ result_pairs
               (fillMark_ (getMark_ "text:a;text:b" types.TEXT)
                  (getMark_ "text:a;text:b" types.TIP)
                  (getMark_ "text:a;text:b" types.VALUE))
         ↔ p ∈ markset_pairs "text:a;text:b").
Proof.
  split; [reflexivity|]. intros H.
  specialize (H ("text", "b")).
  change (("text", "b") ∈ [("text", "a")]
          ↔ ("text", "b") ∈ [("text", "a"); ("text", "b")]) in H.
  assert (("text", "b") ∈ [("text", "a")]) as Hin.
  { apply H. right. left. }
  apply list_elem_of_singleton in Hin. discriminate.
Qed.

(** C2, amended. For every well-formed markset string (an even, non-zero
    number of tokens, alternating a type among [text], [tip], [value] and
    a non-empty name) in which no type is given two different names,
    [fillMark_] of the three names [getMark_] extracts returns a markset
    string that holds exactly the pairs of the original, whatever the
    order of the pairs in the original and however often a pair is
    repeated in it. *)
Theorem build_after_parse (markset : string) :
  well_formed markset = true →
  single_valued (markset_pairs markset) = true →
  ∃ rebuilt,
    fillMark_ (getMark_ markset types.TEXT) (getMark_ markset types.TIP)
      (getMark_ markset types.VALUE) = JStr rebuilt
    ∧ ∀ p, p ∈ markset_pairs rebuilt ↔ p ∈ markset_pairs markset.
Proof.
  intros [Hne Hall]%well_formed_inv Hsv.
  rewrite !getMark_spec. set (ps := markset_pairs markset) in *.
  pose proof (first_match_name_arg types.TEXT _ Hall) as Ht.
  pose proof (first_match_name_arg types.TIP _ Hall) as Hp.
  pose proof (first_match_name_arg types.VALUE _ Hall) as Hv.
  set (text := first_match types.TEXT ps) in *.
  set (tip := first_match types.TIP ps) in *.
  set (value := first_match types.VALUE ps) in *.
  assert (∀ c n, (c, n) ∈ built_pairs text tip value ↔ (c, n) ∈ ps)
    as Hsame.
  { intros c n. rewrite elem_of_built_pairs by done. split.
    - intros [[-> H]|[[-> H]|[-> H]]]; by apply first_match_name.
    - intros Hin. rewrite Forall_forall in Hall.
      destruct (Hall _ Hin) as [Hc _]. simpl in Hc.
      apply is_type_inv in Hc.
      destruct (first_match_some _ _ _ Hin) as [n' Hn'].
      assert (n' = n) as <-.
      { apply (single_valued_spec ps c); [done| |done].
        by apply first_match_name. }
      destruct Hc as [-> | [-> | ->]]; auto. }
  assert (built_pairs text tip value ≠ []) as Hbuilt.
  { destruct ps as [|[c n] ps'] eqn:E; [done|].
    assert ((c, n) ∈ built_pairs text tip value) as Hin.
    { apply Hsame. left. }
    intros Hnil. rewrite Hnil in Hin. inversion Hin. }
  pose proof (built_pairs_no_delim _ _ _ Ht Hp Hv) as Hnd.
  exists (write_pairs (built_pairs text tip value)). split.
  - rewrite fillMark_spec. by destruct (built_pairs text tip value).
  - intros [c n]. rewrite markset_pairs_write by done. apply Hsame.
Qed.

Lemma build_after_parse_witness :
  well_formed "tip:t;text:a;tip:t" = true
  ∧ single_valued (markset_pairs "tip:t;text:a;tip:t") = true
  ∧ ∃ rebuilt,
      fillMark_ (getMark_ "tip:t;text:a;tip:t" types.TEXT)
        (getMark_ "tip:t;text:a;tip:t" types.TIP)
        (getMark_ "tip:t;text:a;tip:t" types.VALUE) = JStr rebuilt
      ∧ ∀ p, p ∈ markset_pairs rebuilt
             ↔ p ∈ markset_pairs "tip:t;text:a;tip:t".
Proof.
  split; [reflexivity|]. split; [reflexivity|].
  apply (build_after_parse "tip:t;text:a;tip:t"); reflexivity.
Defined.

End Rebuild.

(** ** The translators *)

Section Translators.

Import TransMarkSet.

Variable lang : Language.

(** An attribute reads as [null] or as a string. *)
Lemma getAttribute_cases (elem : Element) (name : string) :
  getAttribute elem name = JNull ∨ ∃ x, getAttribute elem name = JStr x.
Proof.
  unfold getAttribute. destruct (attributes elem !! name) as [x|]; eauto.
Qed.

Lemma truthy_guard (elem : Element) (name : string) :
  truthy (getAttribute elem name)
  && js_neq (getAttribute elem name) (JStr "")
  = truthy (getAttribute elem name).
Proof.
  destruct (getAttribute_cases elem name) as [-> | [x ->]]; [done|].
  unfold js_neq. simpl. by destruct (String.eqb x "").
Qed.

Lemma truthy_app (a b : string) :
  truthy (JStr a) = true → truthy (JStr (a +:+ b)) = true.
Proof. by destruct a. Qed.

(** The three resolvers read the attributes of the element only. *)
Lemma getElementTip_attributes (e e' : Element) :
  attributes e' = attributes e →
  getElementTip_ lang e' = getElementTip_ lang e.
Proof.
  intros H. unfold getElementTip_, getAttribute. by rewrite H.
Qed.

Lemma apply_tip_falsy (v : jsval) (elem : Element) (sched : Tips.t) :
  truthy v = false → apply_tip v elem sched = (elem, sched).
Proof. unfold apply_tip. by intros ->. Qed.

Lemma apply_tip_truthy (v : jsval) (elem : Element) (sched : Tips.t) :
  truthy v = true →
  apply_tip v elem sched = (set_tip elem v, sched ++ [set_tip elem v]).
Proof. unfold apply_tip. by intros ->. Qed.

Lemma unresolved_inv (table : Table) (type : string)
    (elem : Element) :
  unresolved table type elem = true →
  truthy (getAttribute elem TRANSMARK_ATTRNAME) = false
  ∨ prop table
      (getMark_ (ToString (getAttribute elem TRANSMARK_ATTRNAME)) type)
    = JUndefined.
Proof.
  unfold unresolved.
  destruct (getAttribute_cases elem TRANSMARK_ATTRNAME) as [-> | [mark ->]];
    [by left|].
  intros [H|H]%orb_true_iff.
  - left. simpl. by rewrite H.
  - right. unfold no_entry in H. apply andb_true_iff in H as [H1 H2].
    apply bool_decide_eq_true in H1, H2. unfold prop. simpl.
    by rewrite H1, H2.
Qed.

Lemma getElementText_unresolved (elem : Element) :
  unresolved (texts lang) types.TEXT elem = true →
  getElementText_ lang elem = JNull.
Proof.
  intros H%unresolved_inv. unfold getElementText_, getText_.
  rewrite truthy_guard. destruct H as [-> | ->]; [done|].
  by destruct (truthy _).
Qed.

Lemma getElementValue_unresolved (elem : Element) :
  unresolved (values lang) types.VALUE elem = true →
  getElementValue_ lang elem = JNull.
Proof.
  intros H%unresolved_inv. unfold getElementValue_, getValue_.
  rewrite truthy_guard. destruct H as [-> | ->]; [done|].
  by destruct (truthy _).
Qed.

Lemma getElementTip_unresolved (elem : Element) :
  unresolved (tips lang) types.TIP elem = true →
  getElementTip_ lang elem = JNull.
Proof.
  intros H%unresolved_inv. unfold getElementTip_, getTip_.
  rewrite truthy_guard. destruct H as [-> | ->]; [done|].
  by destruct (truthy _).
Qed.

Lemma getElementTip_resolved (elem : Element) (T : string) :
  truthy (getAttribute elem TRANSMARK_ATTRNAME) = true →
  getTip_ lang (ToString (getAttribute elem TRANSMARK_ATTRNAME)) = JStr T →
  truthy (JStr T) = true →
  getElementTip_ lang elem
  = JStr (tip_with_range T (getAttribute elem "range"))
  ∧ truthy (JStr (tip_with_range T (getAttribute elem "range"))) = true.
Proof.
  intros Hmark Htip HT. unfold getElementTip_.
  rewrite truthy_guard, Hmark, Htip, HT, truthy_guard.
  unfold tip_with_range.
  destruct (getAttribute_cases elem "range") as [-> | [R ->]]; [done|].
  simpl. destruct (String.eqb R ""); simpl; [done|].
  rewrite string_app_assoc. split; [done|].
  by apply (truthy_app T).
Qed.

Lemma translators_inv (translate : Element → Tips.t → Element * Tips.t) :
  translate ∈ translators lang →
  translate = transLanguageForSpanElem lang
  ∨ translate = transLanguageForInputElem lang
  ∨ translate = transLanguageForSelectElem lang
  ∨ translate = transLanguageForLinkElem lang.
Proof.
  unfold translators. rewrite !elem_of_cons, elem_of_nil. tauto.
Qed.

(** What each translator does with the tip, given the tip resolved for the
    element it is called on. *)
Lemma translators_tip (translate : Element → Tips.t → Element * Tips.t)
    (elem : Element) (sched : Tips.t) :
  translate ∈ translators lang →
  ∃ elem1,
    attributes elem1 = attributes elem ∧ tip elem1 = tip elem
    ∧ ∀ elem2 sched2,
        apply_tip (getElementTip_ lang elem) elem1 sched = (elem2, sched2) →
        tip (translate elem sched).1 = tip elem2
        ∧ (translate elem sched).2 = sched2.
Proof.
  intros [-> | [-> | [-> | ->]]]%translators_inv.
  - unfold transLanguageForSpanElem.
    set (elem1 := if truthy (getElementText_ lang elem)
                  then set_innerHTML elem (getElementText_ lang elem)
                  else elem).
    assert (attributes elem1 = attributes elem ∧ tip elem1 = tip elem)
      as [Ha Ht] by (subst elem1; by destruct (truthy _)).
    exists elem1. split; [done|]. split; [done|].
    intros elem2 sched2. rewrite (getElementTip_attributes _ _ Ha).
    by intros ->.
  - unfold transLanguageForInputElem.
    set (elem1 := if truthy (getElementValue_ lang elem)
                  then set_value elem (getElementValue_ lang elem)
                  else elem).
    assert (attributes elem1 = attributes elem ∧ tip elem1 = tip elem)
      as [Ha Ht] by (subst elem1; by destruct (truthy _)).
    exists elem1. split; [done|]. split; [done|].
    intros elem2 sched2. rewrite (getElementTip_attributes _ _ Ha).
    by intros ->.
  - exists elem. split; [done|]. split; [done|].
    intros elem2 sched2. unfold transLanguageForSelectElem.
    by intros ->.
  - exists elem. split; [done|]. split; [done|].
    intros elem2 sched2. unfold transLanguageForLinkElem.
    by intros ->.
Qed.

(** Against C7 as stated: the tip mark [a] resolves to a string, the empty
    one, and the element has no [range] attribute, yet the span translator
    does not set the tip to that string and calls no scheduler. *)
Lemma empty_tip_not_delivered :
  let table := mkLanguage (literal ∅) (literal {[ "a" := "" ]}) (literal ∅) in
  let elem :=
    mkElement {[ "transmark" := "tip:a" ]} "" "" JUndefined [] in
  getAttribute elem TRANSMARK_ATTRNAME = JStr "tip:a"
  ∧ getTip_ table "tip:a" = JStr ""
  ∧ getAttribute elem "range" = JNull
  ∧ tip (transLanguageForSpanElem table elem []).1 ≠ JStr ""
  ∧ (transLanguageForSpanElem table elem []).2 = [].
Proof. repeat split. discriminate. Qed.

(** C7, amended. For every element whose marker attribute is present
    and non-empty and whose tip mark resolves to a non-empty string [T],
    every translator (span, input, select, link) sets the tip of the
    element to, and hands the tip scheduler an element whose tip is, [T]
    followed by the text [ Range=] and the value of the [range] attribute
    when that attribute is present and non-empty, and [T] itself when it
    is absent or empty. *)
Theorem tip_range_augmentation (elem : Element) (sched : Tips.t)
    (T : string) :
  truthy (getAttribute elem TRANSMARK_ATTRNAME) = true →
  getTip_ lang (ToString (getAttribute elem TRANSMARK_ATTRNAME)) = JStr T →
  truthy (JStr T) = true →
  ∀ translate, translate ∈ translators lang →
    tip (translate elem sched).1
    = JStr (tip_with_range T (getAttribute elem "range"))
    ∧ ∃ scheduled,
        (translate elem sched).2 = sched ++ [scheduled]
        ∧ tip scheduled
          = JStr (tip_with_range T (getAttribute elem "range")).
Proof.
  intros Hmark Htip HT translate Hin.
  destruct (getElementTip_resolved _ _ Hmark Htip HT) as [Hres Htruthy].
  destruct (translators_tip _ elem sched Hin) as (elem1 & _ & _ & Happly).
  rewrite Hres in Happly.
  destruct (Happly _ _ (apply_tip_truthy _ _ _ Htruthy)) as [H1 H2].
  rewrite H1, H2. split; [done|]. by eexists.
Qed.

(** Against C8 as stated: the marker [tip:a;b] is malformed (three
    tokens), yet the span translator sets the tip and calls the
    scheduler. *)
Lemma malformed_marker_applied :
  let table := mkLanguage (literal ∅) (literal {[ "a" := "T" ]}) (literal ∅) in
  let elem :=
    mkElement {[ "transmark" := "tip:a;b" ]} "" "" JUndefined [] in
  getAttribute elem TRANSMARK_ATTRNAME = JStr "tip:a;b"
  ∧ well_formed "tip:a;b" = false
  ∧ tip elem = JUndefined
  ∧ tip (transLanguageForSpanElem table elem []).1 = JStr "T"
  ∧ (transLanguageForSpanElem table elem []).2 ≠ [].
Proof. repeat split. discriminate. Qed.

(** The guard on the marker lets only a string reach [split]: no function
    on the way from an element to its translation throws. *)
Lemma checked_getElementText_ (elem : Element) :
  Checked.getElementText_ lang elem = Normal (getElementText_ lang elem).
Proof.
  unfold Checked.getElementText_, getElementText_.
  destruct (getAttribute_cases elem TRANSMARK_ATTRNAME) as [-> | [m ->]];
    [done|].
  cbv zeta. destruct (truthy (JStr m) && js_neq (JStr m) (JStr ""));
    [|done].
  simpl. unfold getText_. by destruct (truthy _).
Qed.

Lemma checked_getElementValue_ (elem : Element) :
  Checked.getElementValue_ lang elem = Normal (getElementValue_ lang elem).
Proof.
  unfold Checked.getElementValue_, getElementValue_.
  destruct (getAttribute_cases elem TRANSMARK_ATTRNAME) as [-> | [m ->]];
    [done|].
  cbv zeta. destruct (truthy (JStr m) && js_neq (JStr m) (JStr ""));
    [|done].
  simpl. unfold getValue_. by destruct (truthy _).
Qed.

Lemma checked_getElementTip_ (elem : Element) :
  Checked.getElementTip_ lang elem = Normal (getElementTip_ lang elem).
Proof.
  unfold Checked.getElementTip_, getElementTip_.
  destruct (getAttribute_cases elem TRANSMARK_ATTRNAME) as [-> | [m ->]];
    [done|].
  cbv zeta. destruct (truthy (JStr m) && js_neq (JStr m) (JStr ""));
    [|done].
  simpl. unfold getTip_. by destruct (truthy _).
Qed.

Lemma checked_translate_option (option : Element) :
  Checked.translate_option lang option
  = Normal (translate_option lang option).
Proof.
  unfold Checked.translate_option, translate_option.
  by rewrite checked_getElementText_.
Qed.

Lemma checked_translate_options (opts : list Element) :
  mapM (Checked.translate_option lang) opts
  = Normal (Util.array.apply opts (translate_option lang)).
Proof.
  unfold Util.array.apply. induction opts as [|o opts IH]; [done|].
  change (mapM (Checked.translate_option lang) (o :: opts))
    with (y ← Checked.translate_option lang o;
          k ← mapM (Checked.translate_option lang) opts;
          mret (y :: k)).
  by rewrite checked_translate_option, IH.
Qed.

Lemma checked_translators (elem : Element) (sched : Tips.t) :
  Checked.transLanguageForSpanElem lang elem sched
  = Normal (transLanguageForSpanElem lang elem sched)
  ∧ Checked.transLanguageForInputElem lang elem sched
    = Normal (transLanguageForInputElem lang elem sched)
  ∧ Checked.transLanguageForSelectElem lang elem sched
    = Normal (transLanguageForSelectElem lang elem sched)
  ∧ Checked.transLanguageForLinkElem lang elem sched
    = Normal (transLanguageForLinkElem lang elem sched).
Proof.
  split; [|split; [|split]].
  - unfold Checked.transLanguageForSpanElem, transLanguageForSpanElem.
    rewrite checked_getElementText_. simpl.
    by rewrite checked_getElementTip_.
  - unfold Checked.transLanguageForInputElem, transLanguageForInputElem.
    rewrite checked_getElementValue_. simpl.
    by rewrite checked_getElementTip_.
  - unfold Checked.transLanguageForSelectElem, transLanguageForSelectElem.
    rewrite checked_getElementTip_. simpl.
    destruct (apply_tip _ elem sched) as [elem1 sched1].
    by rewrite checked_translate_options.
  - unfold Checked.transLanguageForLinkElem, transLanguageForLinkElem.
    by rewrite checked_getElementTip_.
Qed.

(** Without the guard a marker that is absent would reach [split]: on
    [null] the parser throws. *)
Example split_on_null_throws :
  Checked.getTip_ lang JNull = Throw
  ∧ Checked.getTip_ lang (JStr "tip:a") = Normal (getTip_ lang "tip:a").
Proof. split; reflexivity. Qed.

(** A table written as an object literal inherits [constructor]: the tip
    mark [constructor] resolves to that function, which is set as the tip
    and scheduled, though the table has no entry of its own. *)
Example inherited_property_applied :
  let table := mkLanguage (literal ∅) (literal ∅) (literal ∅) in
  let elem :=
    mkElement {[ "transmark" := "tip:constructor" ]} "" "" JUndefined [] in
  unresolved (tips table) types.TIP elem = false
  ∧ tip (transLanguageForLinkElem table elem []).1
    = JObject 1 "function Object() { [native code] }"
  ∧ (transLanguageForLinkElem table elem []).2 ≠ [].
Proof. repeat split. discriminate. Qed.

(** With no tip name in the marker, [getTip_] indexes the table with
    [null], which reads the entry named [null] when the table has one. *)
Example absent_name_reads_null_entry :
  let table := mkLanguage (literal ∅) (literal {[ "null" := "N" ]}) (literal ∅) in
  let elem :=
    mkElement {[ "transmark" := "text:x" ]} "" "" JUndefined [] in
  getMark_ "text:x" types.TIP = JNull
  ∧ tip (transLanguageForLinkElem table elem []).1 = JStr "N".
Proof. split; reflexivity. Qed.

(** C8, amended. For every element and every translator, when the marker
    attribute is absent or empty, or a lookup in the resource table of the
    type finds nothing, neither an own entry nor an inherited property,
    under the key given by the name found for the type in the marker (the
    key is [null] when no name is found), the translator leaves the
    content, the value or the tip it would set as it is and, for the tip,
    does not call the tip scheduler; the same holds of each option of a
    selection list and its content.  No translator throws, on any
    element: run with its exceptions, each returns what it returns
    without them. *)
Theorem unresolved_is_skipped (elem : Element) (sched : Tips.t) :
  (unresolved (texts lang) types.TEXT elem = true →
   innerHTML (transLanguageForSpanElem lang elem sched).1 = innerHTML elem)
  ∧ (unresolved (values lang) types.VALUE elem = true →
     value (transLanguageForInputElem lang elem sched).1 = value elem)
  ∧ (unresolved (tips lang) types.TIP elem = true →
     ∀ translate, translate ∈ translators lang →
       tip (translate elem sched).1 = tip elem
       ∧ (translate elem sched).2 = sched)
  ∧ (∀ i option,
       options elem !! i = Some option →
       unresolved (texts lang) types.TEXT option = true →
       options (transLanguageForSelectElem lang elem sched).1 !! i
       = Some option)
  ∧ (Checked.transLanguageForSpanElem lang elem sched
     = Normal (transLanguageForSpanElem lang elem sched)
     ∧ Checked.transLanguageForInputElem lang elem sched
       = Normal (transLanguageForInputElem lang elem sched)
     ∧ Checked.transLanguageForSelectElem lang elem sched
       = Normal (transLanguageForSelectElem lang elem sched)
     ∧ Checked.transLanguageForLinkElem lang elem sched
       = Normal (transLanguageForLinkElem lang elem sched)).
Proof.
  split; [|split; [|split; [|split; [|apply checked_translators]]]].
  - intros H%getElementText_unresolved.
    unfold transLanguageForSpanElem. rewrite H. simpl.
    unfold apply_tip. by destruct (truthy _).
  - intros H%getElementValue_unresolved.
    unfold transLanguageForInputElem. rewrite H. simpl.
    unfold apply_tip. by destruct (truthy _).
  - intros H%getElementTip_unresolved translate Hin.
    destruct (translators_tip _ elem sched Hin) as (elem1 & _ & Ht & Happly).
    rewrite H in Happly.
    destruct (Happly _ _ (apply_tip_falsy JNull _ _ eq_refl)) as [H1 H2].
    by rewrite H1, H2.
  - intros i option Hi H%getElementText_unresolved.
    unfold transLanguageForSelectElem.
    destruct (apply_tip _ elem sched) as [elem1 sched1] eqn:E. simpl.
    assert (options elem1 = options elem) as ->.
    { unfold apply_tip in E. destruct (truthy _); by inversion E. }
    unfold Util.array.apply. rewrite list_lookup_fmap, Hi. simpl.
    unfold translate_option. by rewrite H.
Qed.

Lemma translate_option_frame (option : Element) :
  same_but_innerHTML option (translate_option lang option).
Proof.
  unfold translate_option, same_but_innerHTML. cbv zeta.
  destruct (truthy (getElementText_ lang option));
    repeat split; reflexivity.
Qed.

(** C9. For every element, each translator leaves the attributes of the
    element as they are (the marker and the [range] attribute among them)
    and changes no field but its own: the span translator the content and
    the tip, the input translator the value and the tip, the select
    translator its tip and the content of each of its options, the link
    translator the tip. *)
Theorem translators_frame (elem : Element) (sched : Tips.t) :
  let span := (transLanguageForSpanElem lang elem sched).1 in
  let input := (transLanguageForInputElem lang elem sched).1 in
  let select := (transLanguageForSelectElem lang elem sched).1 in
  let link := (transLanguageForLinkElem lang elem sched).1 in
  (attributes span = attributes elem ∧ value span = value elem
   ∧ options span = options elem)
  ∧ (attributes input = attributes elem
     ∧ innerHTML input = innerHTML elem ∧ options input = options elem)
  ∧ (attributes select = attributes elem
     ∧ innerHTML select = innerHTML elem ∧ value select = value elem
     ∧ Forall2 same_but_innerHTML (options elem) (options select))
  ∧ (attributes link = attributes elem ∧ innerHTML link = innerHTML elem
     ∧ value link = value elem ∧ options link = options elem).
Proof.
  simpl. split; [|split; [|split]].
  - unfold transLanguageForSpanElem, apply_tip. cbv zeta.
    destruct (truthy (getElementText_ lang elem)), (truthy _);
      repeat split; done.
  - unfold transLanguageForInputElem, apply_tip. cbv zeta.
    destruct (truthy (getElementValue_ lang elem)), (truthy _);
      repeat split; done.
  - unfold transLanguageForSelectElem, apply_tip. cbv zeta.
    assert (Forall2 same_but_innerHTML (options elem)
              (Util.array.apply (options elem) (translate_option lang)))
      as Hopts.
    { unfold Util.array.apply. apply Forall2_fmap_r, Forall_Forall2_diag.
      apply Forall_forall. intros option _.
      apply translate_option_frame. }
    destruct (truthy (getElementTip_ lang elem)); repeat split; done.
  - unfold transLanguageForLinkElem, apply_tip. cbv zeta.
    destruct (truthy (getElementTip_ lang elem)); repeat split; done.
Qed.

End Translators.

Section TranslatorExamples.

Import TransMarkSet.

Lemma tip_range_augmentation_witness :
  let table :=
    mkLanguage (literal {[ "titleMark" := "Site Map" ]})
      (literal {[ "titleTip" := "Enter the site title" ]}) (literal ∅) in
  let elem :=
    mkElement
      {[ "transmark" := "text:titleMark;tip:titleTip"; "range" := "1-100" ]}
      "" "" JUndefined [] in
  truthy (getAttribute elem TRANSMARK_ATTRNAME) = true
  ∧ getTip_ table (ToString (getAttribute elem TRANSMARK_ATTRNAME))
    = JStr "Enter the site title"
  ∧ truthy (JStr "Enter the site title") = true
  ∧ tip (transLanguageForSpanElem table elem []).1
    = JStr "Enter the site title Range=1-100"
  ∧ ∃ scheduled,
      (transLanguageForSpanElem table elem []).2 = [] ++ [scheduled]
      ∧ tip scheduled = JStr "Enter the site title Range=1-100".
Proof.
  intros table elem.
  split; [reflexivity|]. split; [reflexivity|]. split; [reflexivity|].
  refine (tip_range_augmentation table elem [] "Enter the site title"
            _ _ _ (transLanguageForSpanElem table) _);
    [reflexivity..|].
  unfold translators. left.
Defined.

Lemma unresolved_is_skipped_witness :
  let table := mkLanguage (literal ∅) (literal ∅) (literal ∅) in
  let option :=
    mkElement {[ "transmark" := "text:optA" ]} "A" "" JUndefined [] in
  let elem :=
    mkElement {[ "transmark" := "tip:unknownMark" ]} "" "" JUndefined
      [option] in
  unresolved (texts table) types.TEXT elem = true
  ∧ unresolved (values table) types.VALUE elem = true
  ∧ unresolved (tips table) types.TIP elem = true
  ∧ unresolved (texts table) types.TEXT option = true
  ∧ innerHTML (transLanguageForSpanElem table elem []).1 = innerHTML elem
  ∧ value (transLanguageForInputElem table elem []).1 = value elem
  ∧ (tip (transLanguageForLinkElem table elem []).1 = tip elem
     ∧ (transLanguageForLinkElem table elem []).2 = [])
  ∧ options (transLanguageForSelectElem table elem []).1 !! 0
    = Some option
  ∧ Checked.transLanguageForSpanElem table elem []
    = Normal (transLanguageForSpanElem table elem []).
Proof.
  intros table option elem.
  pose proof (unresolved_is_skipped table elem [])
    as (Htext & Hvalue & Htip & Hoption & Hspan & _).
  split; [reflexivity|]. split; [reflexivity|]. split; [reflexivity|].
  split; [reflexivity|].
  split; [exact (Htext eq_refl)|]. split; [exact (Hvalue eq_refl)|].
  split.
  - apply (Htip eq_refl). unfold translators. do 3 right. left.
  - split; [apply (Hoption 0 option); reflexivity|exact Hspan].
Defined.

End TranslatorExamples.

(** ** Further properties of the parser *)

Section ParserFacts.

Import TransMarkSet.

(** Splitting distributes over a separator: the tokens before it, then the
    tokens after it. *)
Lemma split_app_delim (a : string) (d : ascii) (b : string) :
  is_delim d = true → split (a +:+ String d b) = split a ++ split b.
Proof.
  intros Hd. induction a as [|c a IH].
  - rewrite string_app_nil_l. simpl. by rewrite Hd.
  - rewrite string_app_cons. simpl. rewrite IH.
    destruct (is_delim c); [done|].
    pose proof (split_not_nil a) as Hne.
    by destruct (split a).
Qed.

Lemma first_match_pairs_app (type n : string) (toks more : list string) :
  first_match type (pairs toks) = JStr n →
  first_match type (pairs (toks ++ more)) = JStr n.
Proof.
  revert toks. fix IH 1. intros [|c [|m rest]]; simpl; [done..|].
  destruct (String.eqb c type); [done|]. apply IH.
Qed.

(** X1. [getMark_] never returns [undefined].  It returns [null] exactly
    when no pair of the markset has the requested type, and otherwise a
    name that stands in the markset in a pair of that type and contains no
    separator. *)
Theorem getMark_result (markset type : string) :
  match getMark_ markset type with
  | JNull => ∀ n, (type, n) ∉ markset_pairs markset
  | JStr n => (type, n) ∈ markset_pairs markset ∧ has_delim n = false
  | JUndefined | JObject _ _ => False
  end.
Proof.
  destruct (getMark_ markset type) as [| |n|] eqn:E;
    [| | |rewrite getMark_spec in E; by apply first_match_not_object in E].
  - rewrite getMark_spec in E. by apply first_match_none.
  - rewrite getMark_spec in E. by apply first_match_not_undefined in E.
  - split; [|by apply (getMark_no_delim markset type)].
    rewrite getMark_spec in E. by apply first_match_name.
Qed.

(** X2. A markset without any separator, the empty string included, holds
    no mark: [getMark_] returns [null] for every type. *)
Theorem getMark_no_separator (markset type : string) :
  has_delim markset = false → getMark_ markset type = JNull.
Proof.
  intros H. rewrite getMark_spec. unfold markset_pairs.
  by rewrite (split_no_delim _ H).
Qed.

Lemma getMark_no_separator_witness :
  has_delim "" = false ∧ getMark_ "" "text" = JNull
  ∧ has_delim "text" = false ∧ getMark_ "text" "text" = JNull.
Proof.
  split; [reflexivity|]. split.
  - apply (getMark_no_separator "" "text"). reflexivity.
  - split; [reflexivity|].
    apply (getMark_no_separator "text" "text"). reflexivity.
Defined.

(** X3. A name [getMark_] finds is not changed by what is appended to the
    markset after a separator: the scan stops at the first match. *)
Theorem getMark_stable_under_append (markset type n rest : string)
    (d : ascii) :
  is_delim d = true →
  getMark_ markset type = JStr n →
  getMark_ (markset +:+ String d rest) type = JStr n.
Proof.
  intros Hd. rewrite !getMark_spec. unfold markset_pairs.
  rewrite split_app_delim by done. apply first_match_pairs_app.
Qed.

Lemma getMark_stable_under_append_witness :
  is_delim ";" = true
  ∧ getMark_ "tip:t" "tip" = JStr "t"
  ∧ getMark_ ("tip:t" +:+ String ";" "tip:u;text:a") "tip" = JStr "t".
Proof.
  split; [reflexivity|]. split; [reflexivity|].
  apply (getMark_stable_under_append "tip:t" "tip" "t" "tip:u;text:a" ";");
    reflexivity.
Defined.

End ParserFacts.

(** ** Further properties of the builder *)

Section BuilderFacts.

Import TransMarkSet.

Lemma written_nil (type : string) (name : jsval) :
  written type name = [] ↔ truthy name = false.
Proof. unfold written. by destruct (truthy name). Qed.

Lemma built_pairs_nil (text tip value : jsval) :
  built_pairs text tip value = [] ↔
  truthy text = false ∧ truthy tip = false ∧ truthy value = false.
Proof.
  unfold built_pairs. split.
  - intros [H1 [H2 H3]%app_eq_nil]%app_eq_nil.
    by rewrite !written_nil in *.
  - intros (H1 & H2 & H3).
    by rewrite !written_falsy.
Qed.

(** X4. [fillMark_] returns [null] exactly when none of its three arguments
    is truthy ([null], [undefined] and the empty string all count as
    absent); it never returns [undefined] or the empty string. *)
Theorem fillMark_null_iff (text tip value : jsval) :
  (fillMark_ text tip value = JNull ↔
   truthy text = false ∧ truthy tip = false ∧ truthy value = false)
  ∧ fillMark_ text tip value ≠ JUndefined
  ∧ fillMark_ text tip value ≠ JStr "".
Proof.
  rewrite fillMark_spec, <- built_pairs_nil.
  destruct (built_pairs text tip value) as [|p ps] eqn:E.
  - by repeat split.
  - split; [by split|]. split; [done|].
    intros [= H]. by apply (write_pairs_not_nil (p :: ps)) in H.
Qed.

Lemma written_typed (type : string) (name : jsval) :
  is_type type = true → name_arg name = true →
  Forall (λ p, is_type p.1 = true ∧ valid_name p.2 = true)
    (written type name).
Proof.
  intros Ht Hn. rewrite written_name_arg by done.
  destruct name as [| |n|]; [constructor|constructor| |constructor].
  by repeat constructor.
Qed.

Lemma built_pairs_typed (text tip value : jsval) :
  name_arg text = true → name_arg tip = true → name_arg value = true →
  Forall (λ p, is_type p.1 = true ∧ valid_name p.2 = true)
    (built_pairs text tip value).
Proof.
  intros. unfold built_pairs.
  repeat apply Forall_app_2; by apply written_typed.
Qed.

Lemma built_pairs_single_valued (text tip value : jsval) :
  name_arg text = true → name_arg tip = true → name_arg value = true →
  single_valued (built_pairs text tip value) = true.
Proof.
  intros Ht Hp Hv. unfold built_pairs.
  rewrite !written_name_arg by done.
  destruct text as [| |t|], tip as [| |p|], value as [| |v|];
    try discriminate; unfold single_valued; simpl;
    by rewrite ?String.eqb_refl.
Qed.

(** What [getMark_] reads in a markset the builder returned. *)
Lemma getMark_built (text tip value : jsval) (markset : string) :
  name_arg text = true → name_arg tip = true → name_arg value = true →
  fillMark_ text tip value = JStr markset →
  markset = write_pairs (built_pairs text tip value)
  ∧ built_pairs text tip value ≠ []
  ∧ getMark_ markset types.TEXT = text
  ∧ getMark_ markset types.TIP = tip
  ∧ getMark_ markset types.VALUE = value.
Proof.
  intros Ht Hp Hv. rewrite fillMark_spec.
  pose proof (built_pairs_no_delim _ _ _ Ht Hp Hv) as Hnd.
  pose proof (first_match_built _ _ _ Ht Hp Hv) as (H1 & H2 & H3).
  destruct (built_pairs text tip value) as [|q ps] eqn:E; [done|].
  intros Heq.
  assert (markset = write_pairs (q :: ps)) as -> by congruence.
  split; [done|]. split; [done|].
  by rewrite !getMark_spec, markset_pairs_write.
Qed.

(** X5. For arguments each absent or a present mark name, at least one
    present, the markset [fillMark_] returns is well-formed, gives every
    type at most one name, and holds exactly the pairs of the present
    arguments in the order text, tip, value. *)
Theorem fillMark_well_formed (text tip value : jsval) :
  name_arg text = true → name_arg tip = true → name_arg value = true →
  text ≠ JNull ∨ tip ≠ JNull ∨ value ≠ JNull →
  ∃ markset,
    fillMark_ text tip value = JStr markset
    ∧ well_formed markset = true
    ∧ single_valued (markset_pairs markset) = true
    ∧ markset_pairs markset = built_pairs text tip value.
Proof.
  intros Ht Hp Hv Hsome.
  assert (built_pairs text tip value ≠ []) as Hne.
  { apply built_pairs_not_nil.
    destruct Hsome as [H|[H|H]]; [left|right; left|right; right];
      by apply name_arg_truthy. }
  exists (write_pairs (built_pairs text tip value)).
  rewrite fillMark_spec.
  rewrite markset_pairs_write; [|done|by apply built_pairs_no_delim].
  split; [by destruct (built_pairs text tip value)|].
  split; [by apply write_pairs_well_formed, built_pairs_typed|].
  split; [by apply built_pairs_single_valued|done].
Qed.

Lemma fillMark_well_formed_witness :
  name_arg (JStr "mark1") = true ∧ name_arg (JStr "mark2") = true
  ∧ name_arg JNull = true
  ∧ ∃ markset,
      fillMark_ (JStr "mark1") (JStr "mark2") JNull = JStr markset
      ∧ well_formed markset = true
      ∧ single_valued (markset_pairs markset) = true
      ∧ markset_pairs markset
        = built_pairs (JStr "mark1") (JStr "mark2") JNull.
Proof.
  split; [reflexivity|]. split; [reflexivity|]. split; [reflexivity|].
  apply (fillMark_well_formed (JStr "mark1") (JStr "mark2") JNull);
    [reflexivity..|].
  left. discriminate.
Defined.

End BuilderFacts.

(** ** Further properties of [modifyMark] *)

Section ModifyFacts.

Import TransMarkSet.

Lemma written_present_or_null (type : string) (v : jsval) :
  written type (present_or_null v) = written type v.
Proof.
  unfold written, present_or_null.
  destruct (truthy v) eqn:E; [by rewrite E|done].
Qed.

(** The builder does not tell a falsy argument from [null]. *)
Lemma fillMark_present_or_null (text tip value : jsval) :
  fillMark_ (present_or_null text) (present_or_null tip)
    (present_or_null value)
  = fillMark_ text tip value.
Proof.
  rewrite !fillMark_spec. unfold built_pairs.
  by rewrite !written_present_or_null.
Qed.

(** A name the parser returns becomes, once falsy names count as [null],
    an argument of the builder: absent or a present mark name. *)
Lemma getMark_name_arg (markset type : string) :
  name_arg (present_or_null (getMark_ markset type)) = true.
Proof.
  unfold present_or_null.
  destruct (getMark_ markset type) as [| |n|] eqn:E;
    [done|done| |rewrite getMark_spec in E;
                 by apply first_match_not_object in E].
  destruct (truthy (JStr n)) eqn:Hn; [|done].
  simpl in *. unfold valid_name. rewrite Hn.
  by rewrite (getMark_no_delim _ _ _ E).
Qed.

Lemma modifyMark_keep_names (markset : string) :
  (modifyMark markset keep_names ()).1
  = fillMark_ (getMark_ markset types.TEXT) (getMark_ markset types.TIP)
      (getMark_ markset types.VALUE).
Proof. reflexivity. Qed.

Context {S : Type}.

(** X6. When the three names the modifier returns are each absent or a
    present mark name, at least one present, [modifyMark] returns a markset
    string in which [getMark_] finds, for each type, the name the modifier
    returned for it: a mark is renamed by returning another name and
    removed by returning [null]. *)
Theorem modifyMark_read_back (markset : string)
    (modifier : string → jsval → S → jsval * S) (s : S) :
  let r1 := modifier types.TEXT (getMark_ markset types.TEXT) s in
  let r2 := modifier types.TIP (getMark_ markset types.TIP) r1.2 in
  let r3 := modifier types.VALUE (getMark_ markset types.VALUE) r2.2 in
  name_arg r1.1 = true → name_arg r2.1 = true → name_arg r3.1 = true →
  r1.1 ≠ JNull ∨ r2.1 ≠ JNull ∨ r3.1 ≠ JNull →
  ∃ modified,
    (modifyMark markset modifier s).1 = JStr modified
    ∧ getMark_ modified types.TEXT = r1.1
    ∧ getMark_ modified types.TIP = r2.1
    ∧ getMark_ modified types.VALUE = r3.1.
Proof.
  intros r1 r2 r3 H1 H2 H3 Hsome.
  assert ((modifyMark markset modifier s).1 = fillMark_ r1.1 r2.1 r3.1)
    as ->.
  { subst r1 r2 r3. unfold modifyMark.
    destruct (modifier types.TEXT _ s) as [t s1]. simpl.
    destruct (modifier types.TIP _ s1) as [p s2]. simpl.
    by destruct (modifier types.VALUE _ s2) as [v s3]. }
  assert (built_pairs r1.1 r2.1 r3.1 ≠ []) as Hne.
  { apply built_pairs_not_nil.
    destruct Hsome as [H|[H|H]]; [left|right; left|right; right];
      by apply name_arg_truthy. }
  exists (write_pairs (built_pairs r1.1 r2.1 r3.1)).
  assert (fillMark_ r1.1 r2.1 r3.1
          = JStr (write_pairs (built_pairs r1.1 r2.1 r3.1))) as Hfill.
  { rewrite fillMark_spec. by destruct (built_pairs r1.1 r2.1 r3.1). }
  split; [done|].
  by destruct (getMark_built _ _ _ _ H1 H2 H3 Hfill) as (_ & _ & ?).
Qed.

End ModifyFacts.

Section ModifyExamples.

Import TransMarkSet.

Lemma modifyMark_read_back_witness :
  let modifier := λ (type : string) (name : jsval) (s : unit),
    (if String.eqb type "tip" then JStr "newTip"
     else if String.eqb type "value" then JNull else name, s) in
  (modifyMark "text:a;value:v" modifier ()).1 = JStr "text:a;tip:newTip"
  ∧ ∃ modified,
      (modifyMark "text:a;value:v" modifier ()).1 = JStr modified
      ∧ getMark_ modified types.TEXT = JStr "a"
      ∧ getMark_ modified types.TIP = JStr "newTip"
      ∧ getMark_ modified types.VALUE = JNull.
Proof.
  intros modifier. split; [reflexivity|].
  apply (modifyMark_read_back "text:a;value:v" modifier ());
    [reflexivity..|].
  left. discriminate.
Defined.

(** X7. Rewriting a markset with the modifier that keeps every name is
    idempotent: whatever the markset string, when [modifyMark] returns a
    markset for it, [modifyMark] returns that markset unchanged for the
    markset returned. *)
Theorem modifyMark_keep_idempotent (markset rewritten : string) :
  (modifyMark markset keep_names ()).1 = JStr rewritten →
  (modifyMark rewritten keep_names ()).1 = JStr rewritten.
Proof.
  rewrite !modifyMark_keep_names. intros H.
  rewrite <- fillMark_present_or_null in H.
  destruct (getMark_built _ _ _ _ (getMark_name_arg markset types.TEXT)
              (getMark_name_arg markset types.TIP)
              (getMark_name_arg markset types.VALUE) H)
    as (_ & _ & -> & -> & ->).
  exact H.
Qed.

Lemma modifyMark_keep_idempotent_witness :
  (modifyMark "tip:t;;junk;text:a;tip:u;value:" keep_names ()).1
  = JStr "text:a;tip:t"
  ∧ (modifyMark "text:a;tip:t" keep_names ()).1 = JStr "text:a;tip:t".
Proof.
  split; [reflexivity|].
  apply (modifyMark_keep_idempotent
           "tip:t;;junk;text:a;tip:u;value:" "text:a;tip:t").
  reflexivity.
Defined.

End ModifyExamples.

(** ** Further properties of the resolvers and the translators *)

Section TranslatorFacts.

Import TransMarkSet.

Variable lang : Language.

Lemma getElementText_attributes (e e' : Element) :
  attributes e' = attributes e →
  getElementText_ lang e' = getElementText_ lang e.
Proof.
  intros H. unfold getElementText_, getAttribute. by rewrite H.
Qed.

Lemma getElementValue_attributes (e e' : Element) :
  attributes e' = attributes e →
  getElementValue_ lang e' = getElementValue_ lang e.
Proof.
  intros H. unfold getElementValue_, getAttribute. by rewrite H.
Qed.

Lemma put_innerHTML_attributes (v : jsval) (e : Element) :
  attributes (put_innerHTML v e) = attributes e.
Proof. unfold put_innerHTML. by destruct (truthy v). Qed.

Lemma put_value_attributes (v : jsval) (e : Element) :
  attributes (put_value v e) = attributes e.
Proof. unfold put_value. by destruct (truthy v). Qed.

Lemma put_tip_attributes (v : jsval) (e : Element) :
  attributes (put_tip v e) = attributes e.
Proof. unfold put_tip. by destruct (truthy v). Qed.

Lemma apply_tip_put (v : jsval) (e : Element) (sched : Tips.t) :
  apply_tip v e sched
  = (put_tip v e, if truthy v then sched ++ [put_tip v e] else sched).
Proof. unfold apply_tip, put_tip. by destruct (truthy v). Qed.

(** The four translators in terms of the guarded assignments. *)
Lemma span_steps (e : Element) (sched : Tips.t) :
  transLanguageForSpanElem lang e sched
  = apply_tip (getElementTip_ lang e)
      (put_innerHTML (getElementText_ lang e) e) sched.
Proof.
  unfold transLanguageForSpanElem. cbv zeta.
  change (if truthy (getElementText_ lang e)
          then set_innerHTML e (getElementText_ lang e) else e)
    with (put_innerHTML (getElementText_ lang e) e).
  by rewrite (getElementTip_attributes lang _ _
                (put_innerHTML_attributes _ e)).
Qed.

Lemma input_steps (e : Element) (sched : Tips.t) :
  transLanguageForInputElem lang e sched
  = apply_tip (getElementTip_ lang e)
      (put_value (getElementValue_ lang e) e) sched.
Proof.
  unfold transLanguageForInputElem. cbv zeta.
  change (if truthy (getElementValue_ lang e)
          then set_value e (getElementValue_ lang e) else e)
    with (put_value (getElementValue_ lang e) e).
  by rewrite (getElementTip_attributes lang _ _
                (put_value_attributes _ e)).
Qed.

Lemma select_steps (e : Element) (sched : Tips.t) :
  transLanguageForSelectElem lang e sched
  = (set_options (put_tip (getElementTip_ lang e) e)
       (translate_option lang <$> options e),
     (apply_tip (getElementTip_ lang e) e sched).2).
Proof.
  unfold transLanguageForSelectElem. cbv zeta.
  rewrite apply_tip_put. unfold Util.array.apply, put_tip.
  by destruct (truthy (getElementTip_ lang e)).
Qed.

Lemma link_steps (e : Element) (sched : Tips.t) :
  transLanguageForLinkElem lang e sched
  = apply_tip (getElementTip_ lang e) e sched.
Proof. reflexivity. Qed.

Lemma translate_option_put (o : Element) :
  translate_option lang o = put_innerHTML (getElementText_ lang o) o.
Proof. reflexivity. Qed.

(** X8. For arguments each absent or a present mark name, the three
    resolvers applied to the markset [fillMark_] returns read the resource
    tables with the names given to the builder: the text table with the
    text name, the tip table with the tip name, the value table with the
    value name. *)
Theorem resolve_built (text tip value : jsval) (markset : string) :
  name_arg text = true → name_arg tip = true → name_arg value = true →
  fillMark_ text tip value = JStr markset →
  getText_ lang markset = prop (texts lang) text
  ∧ getTip_ lang markset = prop (tips lang) tip
  ∧ getValue_ lang markset = prop (values lang) value.
Proof.
  intros Ht Hp Hv Hfill. unfold getText_, getTip_, getValue_.
  by destruct (getMark_built _ _ _ _ Ht Hp Hv Hfill)
    as (_ & _ & -> & -> & ->).
Qed.


(** X10. When the marker attribute of an element is present and non-empty
    and its text mark resolves to a non-empty string, the span translator
    replaces the content of the element by that string. *)
Theorem span_text_applied (elem : Element) (sched : Tips.t) (X : string) :
  truthy (getAttribute elem TRANSMARK_ATTRNAME) = true →
  getText_ lang (ToString (getAttribute elem TRANSMARK_ATTRNAME)) = JStr X →
  truthy (JStr X) = true →
  innerHTML (transLanguageForSpanElem lang elem sched).1 = X.
Proof.
  intros Hmark Htext HX.
  assert (getElementText_ lang elem = JStr X) as Hres.
  { unfold getElementText_. by rewrite truthy_guard, Hmark, Htext, HX. }
  rewrite span_steps, apply_tip_put, Hres. simpl.
  unfold put_tip, put_innerHTML. rewrite HX.
  by destruct (truthy (getElementTip_ lang elem)).
Qed.

(** X11. When the marker attribute of an element is present and non-empty
    and its value mark resolves to a non-empty string, the input translator
    sets the value of the element to that string. *)
Theorem input_value_applied (elem : Element) (sched : Tips.t) (X : string) :
  truthy (getAttribute elem TRANSMARK_ATTRNAME) = true →
  getValue_ lang (ToString (getAttribute elem TRANSMARK_ATTRNAME)) = JStr X →
  truthy (JStr X) = true →
  value (transLanguageForInputElem lang elem sched).1 = X.
Proof.
  intros Hmark Hvalue HX.
  assert (getElementValue_ lang elem = JStr X) as Hres.
  { unfold getElementValue_. by rewrite truthy_guard, Hmark, Hvalue, HX. }
  rewrite input_steps, apply_tip_put, Hres. simpl.
  unfold put_tip, put_value. rewrite HX.
  by destruct (truthy (getElementTip_ lang elem)).
Qed.

(** X12. The select translator keeps the number and the order of the
    options, and replaces the content of every option whose own marker is
    present and non-empty and whose text mark resolves to a non-empty
    string by that string, leaving the rest of the option as it is. *)
Theorem select_option_applied (elem : Element) (sched : Tips.t)
    (i : nat) (option : Element) (X : string) :
  options elem !! i = Some option →
  truthy (getAttribute option TRANSMARK_ATTRNAME) = true →
  getText_ lang (ToString (getAttribute option TRANSMARK_ATTRNAME))
  = JStr X →
  truthy (JStr X) = true →
  length (options (transLanguageForSelectElem lang elem sched).1)
  = length (options elem)
  ∧ ∃ option',
      options (transLanguageForSelectElem lang elem sched).1 !! i
      = Some option'
      ∧ innerHTML option' = X
      ∧ same_but_innerHTML option option'.
Proof.
  intros Hi Hmark Htext HX.
  assert (getElementText_ lang option = JStr X) as Hres.
  { unfold getElementText_. by rewrite truthy_guard, Hmark, Htext, HX. }
  rewrite select_steps. simpl. rewrite length_fmap. split; [done|].
  exists (translate_option lang option).
  rewrite list_lookup_fmap, Hi. split; [done|].
  split; [|apply translate_option_frame].
  rewrite translate_option_put, Hres. unfold put_innerHTML.
  by rewrite HX.
Qed.

(** X13. Each translator calls the tip scheduler at most once and keeps
    the calls made before: when the tip of the element resolves it sets
    the tip and hands the scheduler one element, which carries that tip and
    the attributes of the element; otherwise it leaves the tip and makes
    no call. *)
Theorem translators_schedule (elem : Element) (sched : Tips.t) :
  Forall (λ translate : Element → Tips.t → Element * Tips.t,
    if truthy (getElementTip_ lang elem)
    then tip (translate elem sched).1 = getElementTip_ lang elem
         ∧ ∃ scheduled,
             (translate elem sched).2 = sched ++ [scheduled]
             ∧ tip scheduled = getElementTip_ lang elem
             ∧ attributes scheduled = attributes elem
    else tip (translate elem sched).1 = tip elem
         ∧ (translate elem sched).2 = sched)
    (translators lang).
Proof.
  unfold translators. repeat apply Forall_cons_2; [..|constructor].
  - rewrite span_steps, apply_tip_put. unfold put_tip. simpl.
    destruct (truthy (getElementTip_ lang elem)); simpl.
    + split; [done|]. eexists. split; [done|]. split; [done|].
      apply put_innerHTML_attributes.
    + split; [|done]. unfold put_innerHTML.
      by destruct (truthy (getElementText_ lang elem)).
  - rewrite input_steps, apply_tip_put. unfold put_tip. simpl.
    destruct (truthy (getElementTip_ lang elem)); simpl.
    + split; [done|]. eexists. split; [done|]. split; [done|].
      apply put_value_attributes.
    + split; [|done]. unfold put_value.
      by destruct (truthy (getElementValue_ lang elem)).
  - rewrite select_steps, apply_tip_put. unfold put_tip. simpl.
    destruct (truthy (getElementTip_ lang elem)); simpl; [|done].
    split; [done|]. by eexists.
  - rewrite link_steps, apply_tip_put. unfold put_tip. simpl.
    destruct (truthy (getElementTip_ lang elem)); simpl; [|done].
    split; [done|]. by eexists.
Qed.

Lemma put_innerHTML_twice (v : jsval) (e : Element) :
  put_innerHTML v (put_innerHTML v e) = put_innerHTML v e.
Proof. unfold put_innerHTML. by destruct (truthy v). Qed.

Lemma translate_option_idemp (o : Element) :
  translate_option lang (translate_option lang o) = translate_option lang o.
Proof.
  rewrite !translate_option_put.
  rewrite (getElementText_attributes _ _ (put_innerHTML_attributes _ o)).
  apply put_innerHTML_twice.
Qed.

(** X14. Translating an element again changes nothing: the element a
    translator returns is returned unchanged when the same translator is
    run on it once more, whatever the state of the scheduler. *)
Theorem translators_idempotent (elem : Element) (sched sched' : Tips.t) :
  Forall (λ translate : Element → Tips.t → Element * Tips.t,
    (translate (translate elem sched).1 sched').1
    = (translate elem sched).1)
    (translators lang).
Proof.
  unfold translators. repeat apply Forall_cons_2; [..|constructor].
  - rewrite !span_steps, !apply_tip_put. simpl.
    rewrite (getElementTip_attributes lang elem (put_tip _ _)),
      (getElementText_attributes elem (put_tip _ _))
      by by rewrite put_tip_attributes, put_innerHTML_attributes.
    unfold put_tip, put_innerHTML.
    by destruct (truthy (getElementTip_ lang elem)),
      (truthy (getElementText_ lang elem)).
  - rewrite !input_steps, !apply_tip_put. simpl.
    rewrite (getElementTip_attributes lang elem (put_tip _ _)),
      (getElementValue_attributes elem (put_tip _ _))
      by by rewrite put_tip_attributes, put_value_attributes.
    unfold put_tip, put_value.
    by destruct (truthy (getElementTip_ lang elem)),
      (truthy (getElementValue_ lang elem)).
  - rewrite !select_steps. simpl.
    rewrite (getElementTip_attributes lang elem (set_options _ _))
      by apply put_tip_attributes.
    rewrite <- list_fmap_compose.
    rewrite (list_fmap_ext (translate_option lang ∘ translate_option lang)
               (translate_option lang) (options elem))
      by (intros ? o _; apply translate_option_idemp).
    unfold put_tip.
    by destruct (truthy (getElementTip_ lang elem)).
  - rewrite !link_steps, !apply_tip_put. simpl.
    rewrite (getElementTip_attributes lang elem (put_tip _ _))
      by apply put_tip_attributes.
    unfold put_tip.
    by destruct (truthy (getElementTip_ lang elem)).
Qed.

End TranslatorFacts.

Section TranslatorFactsExamples.

Import TransMarkSet.

Lemma resolve_built_witness :
  let table :=
    mkLanguage (literal {[ "titleMark" := "Site Map" ]})
      (literal {[ "titleTip" := "Enter the site title" ]}) (literal ∅) in
  name_arg (JStr "titleMark") = true ∧ name_arg (JStr "titleTip") = true
  ∧ name_arg JNull = true
  ∧ fillMark_ (JStr "titleMark") (JStr "titleTip") JNull
    = JStr "text:titleMark;tip:titleTip"
  ∧ getText_ table "text:titleMark;tip:titleTip"
    = prop (texts table) (JStr "titleMark")
  ∧ getTip_ table "text:titleMark;tip:titleTip"
    = prop (tips table) (JStr "titleTip")
  ∧ getValue_ table "text:titleMark;tip:titleTip"
    = prop (values table) JNull.
Proof.
  intros table.
  split; [reflexivity|]. split; [reflexivity|]. split; [reflexivity|].
  split; [reflexivity|].
  apply (resolve_built table (JStr "titleMark") (JStr "titleTip") JNull
           "text:titleMark;tip:titleTip"); reflexivity.
Defined.

Lemma span_text_applied_witness :
  let table :=
    mkLanguage (literal {[ "titleMark" := "Site Map" ]})
      (literal {[ "titleTip" := "Enter the site title" ]}) (literal ∅) in
  let elem :=
    mkElement {[ "transmark" := "text:titleMark;tip:titleTip" ]}
      "title" "" JUndefined [] in
  truthy (getAttribute elem TRANSMARK_ATTRNAME) = true
  ∧ getText_ table (ToString (getAttribute elem TRANSMARK_ATTRNAME))
    = JStr "Site Map"
  ∧ truthy (JStr "Site Map") = true
  ∧ innerHTML (transLanguageForSpanElem table elem []).1 = "Site Map".
Proof.
  intros table elem.
  split; [reflexivity|]. split; [reflexivity|]. split; [reflexivity|].
  apply (span_text_applied table elem [] "Site Map"); reflexivity.
Defined.

Lemma input_value_applied_witness :
  let table :=
    mkLanguage (literal ∅) (literal ∅)
      (literal {[ "saveMark" := "Save" ]}) in
  let elem :=
    mkElement {[ "transmark" := "value:saveMark" ]} "" "save" JUndefined
      [] in
  truthy (getAttribute elem TRANSMARK_ATTRNAME) = true
  ∧ getValue_ table (ToString (getAttribute elem TRANSMARK_ATTRNAME))
    = JStr "Save"
  ∧ truthy (JStr "Save") = true
  ∧ value (transLanguageForInputElem table elem []).1 = "Save".
Proof.
  intros table elem.
  split; [reflexivity|]. split; [reflexivity|]. split; [reflexivity|].
  apply (input_value_applied table elem [] "Save"); reflexivity.
Defined.

Lemma select_option_applied_witness :
  let table :=
    mkLanguage (literal {[ "optA" := "First"; "optB" := "Second" ]})
      (literal ∅) (literal ∅) in
  let optionA :=
    mkElement {[ "transmark" := "text:optA" ]} "a" "1" JUndefined [] in
  let optionB :=
    mkElement {[ "transmark" := "text:optB" ]} "b" "2" JUndefined [] in
  let elem := mkElement ∅ "" "" JUndefined [optionA; optionB] in
  options elem !! 1 = Some optionB
  ∧ truthy (getAttribute optionB TRANSMARK_ATTRNAME) = true
  ∧ getText_ table (ToString (getAttribute optionB TRANSMARK_ATTRNAME))
    = JStr "Second"
  ∧ truthy (JStr "Second") = true
  ∧ length (options (transLanguageForSelectElem table elem []).1)
    = length (options elem)
  ∧ ∃ option',
      options (transLanguageForSelectElem table elem []).1 !! 1
      = Some option'
      ∧ innerHTML option' = "Second"
      ∧ same_but_innerHTML optionB option'.
Proof.
  intros table optionA optionB elem.
  split; [reflexivity|]. split; [reflexivity|]. split; [reflexivity|].
  split; [reflexivity|].
  apply (select_option_applied table elem [] 1 optionB "Second");
    reflexivity.
Defined.

End TranslatorFactsExamples.
